(** * tidal-playlist: the playlist-building pipeline

    A shallow embedding of the Go packages [models], [config], [api]
    (playlist part of the client) and [builder], and the properties of
    the pipeline fetch -> filter -> sample -> collect -> upsert.

    Conventions of the embedding:
    - a Go [string] is a byte string ([string] of 8-bit [ascii]);
    - a Go [error] value is [option error] with [None] for [nil]; a
      pointer [*T] is [option T] with [None] for [nil];
    - the remote service and [math/rand] are an explicit environment: the
      service answers as a function of the calls made so far, random
      numbers are read from a tape;
    - a function of the program is a computation [M A] over that
      environment, which also records the calls sent to the service and
      the text written to standard output, and which can panic. *)

From stdpp Require Import base numbers option list strings gmap sorting pretty.

Open Scope string_scope.
Open Scope list_scope.
Open Scope nat_scope.

(** ** Package [models] *)

(** [models.ArtistID]: an artist with its id only. *)
Record ArtistID := mkArtistID { ArtistID_ID : string }.

(** [models.Artist]; [Artist_Name] is [Attributes.Name]. *)
Record Artist := mkArtist { Artist_ID : string; Artist_Name : string }.

(** [models.Track]. *)
Record Track := mkTrack {
  Track_ID : string;
  Track_Title : string;
  Track_Duration : Z;
  Track_TrackNumber : Z;
  Track_ArtistID : string;
  Track_AlbumID : string;
  Track_Artists : list Artist
}.

(** [models.Album]. *)
Record Album := mkAlbum {
  Album_ID : string;
  Album_Title : string;
  Album_Artists : list Artist;
  Album_ReleaseDate : string;
  Album_NumberOfTracks : Z
}.

(** [models.Playlist], without the creator and the two time stamps, which
    no function of the pipeline reads or writes. *)
Record Playlist := mkPlaylist {
  Playlist_ID : string;
  Playlist_UUID : string;
  Playlist_Title : string;
  Playlist_Name : string;
  Playlist_Description : string;
  Playlist_NumberOfTracks : Z
}.

Global Instance ArtistID_eq_dec : EqDecision ArtistID.
Proof. solve_decision. Defined.
Global Instance Artist_eq_dec : EqDecision Artist.
Proof. solve_decision. Defined.
Global Instance Track_eq_dec : EqDecision Track.
Proof. solve_decision. Defined.
Global Instance Album_eq_dec : EqDecision Album.
Proof. solve_decision. Defined.
Global Instance Playlist_eq_dec : EqDecision Playlist.
Proof. solve_decision. Defined.

(** The zero value of [models.ArtistID], as [make] fills a fresh slice. *)
Global Instance ArtistID_inhabited : Inhabited ArtistID :=
  populate (mkArtistID "").

(** [func (p *Playlist) GetID() string]: prefers ID over UUID. *)
Definition GetID (p : Playlist) : string :=
  if decide (Playlist_ID p ≠ "") then Playlist_ID p else Playlist_UUID p.

(** [func (p *Playlist) GetTitle() string]: prefers Title over Name. *)
Definition GetTitle (p : Playlist) : string :=
  if decide (Playlist_Title p ≠ "") then Playlist_Title p else Playlist_Name p.

(** ** Package [config] *)

Record FiltersConfig := mkFiltersConfig {
  Blacklist : list string;
  Whitelist : list string
}.

Record PlaylistConfig := mkPlaylistConfig {
  DefaultName : string;
  Count : Z
}.

Record TidalConfig := mkTidalConfig {
  ClientID : string;
  ClientSecret : string;
  CountryCode : string
}.

Record Config := mkConfig {
  Tidal : TidalConfig;
  Playlist_ : PlaylistConfig;
  Filters : FiltersConfig
}.

(** A Go [error] carries its message; [fmt.Errorf("ctx: %w", err)] is
    [wrap "ctx" err]. *)
Definition error := string.

Definition wrap (context : string) (err : error) : error :=
  context +:+ ": " +:+ err.

(** [func (c *Config) Validate() error]. *)
Definition Validate (c : Config) : option error :=
  if decide (ClientID (Tidal c) = "") then Some "tidal.client_id is required"
  else if decide (ClientSecret (Tidal c) = "") then
    Some "tidal.client_secret is required"
  else if decide (Count (Playlist_ c) < 1)%Z then
    Some "playlist.count must be at least 1"
  else None.

(** ** The environment: remote service, random numbers, standard output *)

(** The requests the client sends to the service, one constructor per
    client method that reaches the network. *)
Inductive Call :=
| CallGetFavoriteArtists
| CallGetArtist (artistID : string)
| CallGetArtistAlbums (artistID : string)
| CallGetAlbumTracks (albumID : string)
| CallGetUserPlaylists
| CallCreatePlaylist (title description : string)
| CallUpdatePlaylistMetadata (playlistUUID title description : string)
| CallSetPlaylistTracks (playlistUUID : string) (trackIDs : list string)
| CallDeletePlaylist (playlistUUID : string).

Global Instance Call_eq_dec : EqDecision Call.
Proof. solve_decision. Defined.

(** The calls that change something on the service. *)
Definition is_mutation (c : Call) : bool :=
  match c with
  | CallCreatePlaylist _ _ | CallUpdatePlaylistMetadata _ _ _
  | CallSetPlaylistTracks _ _ | CallDeletePlaylist _ => true
  | _ => false
  end.

(** What the service sends back: the decoded body, or a failure of the
    transport, of the HTTP status or of the decoder. A client method has
    one error exit per such failure, each returning the zero value and a
    wrapped error; [Failed] carries the message as the method returns it. *)
Inductive response (A : Type) :=
| Body (a : A)
| Failed (err : error).
Arguments Body {A} a.
Arguments Failed {A} err.

(** An element of the [data] array of a playlist response. *)
Record PlaylistItem := mkPlaylistItem {
  Item_ID : string;
  Item_Name : string;
  Item_Description : string
}.

(** The service. Every answer may depend on the calls received before, so
    that a request can fail once and succeed later, and the list of
    playlists can follow the deletions and creations. *)
Record Remote := mkRemote {
  favoriteArtists : list Call → response (list ArtistID);
  artist : list Call → string → response Artist;
  artistAlbums : list Call → string → response (list Album);
  albumTracks : list Call → string → response (list Track);
  userPlaylists : list Call → response (list PlaylistItem);
  createPlaylist : list Call → string → string → response PlaylistItem;
  updatePlaylistMetadata : list Call → string → string → string → option error;
  setPlaylistTracks : list Call → string → list string → option error;
  deletePlaylist : list Call → string → option error
}.

(** The mutable part of a run. *)
Record World := mkWorld {
  tape : list nat;        (* the numbers [math/rand] is going to draw *)
  calls : list Call;      (* the requests sent so far, oldest first *)
  stdout : list string    (* what was printed so far, oldest first *)
}.

(** The run-time panics the pipeline can raise. *)
Inductive panic :=
| NilDereference        (* invalid memory address or nil pointer dereference *)
| IntnArgument          (* invalid argument to Intn *)
| IndexOutOfRange       (* index out of range *)
| MakesliceLen.         (* makeslice: len out of range *)

Global Instance panic_eq_dec : EqDecision panic.
Proof. solve_decision. Defined.

Inductive outcome (A : Type) :=
| Val (a : A)
| Panic (p : panic).
Arguments Val {A} a.
Arguments Panic {A} p.

(** Computations: state passing over [World], stopped by a panic. *)
Definition M (A : Type) : Type := World → outcome A * World.

Global Instance M_ret : MRet M := λ A a w, (Val a, w).

Global Instance M_bind : MBind M := λ A B f m w,
  match m w with
  | (Val a, w') => f a w'
  | (Panic p, w') => (Panic p, w')
  end.

Definition raise {A} (p : panic) : M A := λ w, (Panic p, w).

(** Sends [c] and hands back the answer the service computes from the
    calls it has seen. *)
Definition request {A} (c : Call) (answer : list Call → A) : M A := λ w,
  (Val (answer (calls w)), mkWorld (tape w) (calls w ++ [c]) (stdout w)).

(** [fmt.Printf] with the formatted text, and [fmt.Println]. *)
Definition Printf (text : string) : M unit := λ w,
  (Val (), mkWorld (tape w) (calls w) (stdout w ++ [text])).

Definition LF : string := String (Ascii.ascii_of_nat 10) "".

Definition Println (text : string) : M unit := Printf (text +:+ LF).

(** [rand.Intn(n)]: panics unless [0 < n], else draws from the tape a
    number of the interval [0, n). An exhausted tape draws 0. *)
Definition Intn (n : nat) : M nat := λ w,
  if decide (n = 0) then (Panic IntnArgument, w)
  else (Val (hd 0 (tape w) `mod` n), mkWorld (tl (tape w)) (calls w) (stdout w)).

(** [p.f] for a pointer [p]. *)
Definition deref {A B} (p : option A) (f : A → B) : M B :=
  match p with
  | Some a => mret (f a)
  | None => raise NilDereference
  end.

(** [s[i]] and [s[i] = x] with Go's bounds check. *)
Definition index {A} (s : list A) (i : nat) : M A :=
  match s !! i with
  | Some x => mret x
  | None => raise IndexOutOfRange
  end.

Definition store {A} (s : list A) (i : nat) (x : A) : M (list A) :=
  if decide (i < length s) then mret (<[i := x]> s) else raise IndexOutOfRange.

(** The longest slice of elements of a type that the runtime of the run
    allocates: its [maxAlloc] over the size of an element, at most. *)
Class Allocation (A : Type) := maxLen : Z.
Arguments maxLen A {_}.

(** [make([]T, n)]: a slice of [n] zero values. The runtime refuses a
    negative length and one above its limit for the element type. *)
Definition make {A} `{Inhabited A, Allocation A} (n : Z) : M (list A) :=
  if decide (n < 0 ∨ maxLen A < n)%Z then raise MakesliceLen
  else mret (replicate (Z.to_nat n) inhabitant).

(** [%v] of an error value. *)
Definition fmt_error (err : option error) : string :=
  match err with
  | Some e => e
  | None => "<nil>"
  end.

(** [%d] of a non-negative int. *)
Definition fmt_int (n : nat) : string := pretty n.

(** ** Package [api]: the client *)

(** A [*api.Client] is the service it talks to. The country code of its
    configuration only enters the URL of a request. *)
Definition Client := Remote.

Section client.
Variable c : Client.

(** [GetFavoriteArtists]: follows the cursors of the service to the last
    page; the pages are one read here. *)
Definition GetFavoriteArtists : M (list ArtistID * option error) :=
  r ← request CallGetFavoriteArtists (favoriteArtists c);
  match r with
  | Failed err => mret ([], Some err)
  | Body allArtists => mret (allArtists, None)
  end.

(** [GetArtist]: [nil] and an error, or the address of the decoded data. *)
Definition GetArtist (artistID : string) : M (option Artist * option error) :=
  r ← request (CallGetArtist artistID) (λ h, artist c h artistID);
  match r with
  | Failed err => mret (None, Some err)
  | Body data => mret (Some data, None)
  end.

(** [GetArtistAlbums]: the included albums, cut to [limit]. *)
Definition GetArtistAlbums (artistID : string) (limit : nat)
    : M (list Album * option error) :=
  r ← request (CallGetArtistAlbums artistID) (λ h, artistAlbums c h artistID);
  match r with
  | Failed err => mret ([], Some err)
  | Body albums =>
      let albums :=
        if decide (limit < length albums) then take limit albums else albums in
      mret (albums, None)
  end.

(** [GetAlbumTracks]. *)
Definition GetAlbumTracks (albumID : string) : M (list Track * option error) :=
  r ← request (CallGetAlbumTracks albumID) (λ h, albumTracks c h albumID);
  match r with
  | Failed err => mret ([], Some err)
  | Body tracks => mret (tracks, None)
  end.

(** The playlist a response item is converted to: the name is copied to
    the title, the UUID stays empty. *)
Definition playlist_of_item (item : PlaylistItem) : Playlist :=
  mkPlaylist (Item_ID item) "" (Item_Name item) (Item_Name item)
             (Item_Description item) 0.

(** [GetUserPlaylists]; the lookup of the user id is part of the read. *)
Definition GetUserPlaylists : M (list Playlist * option error) :=
  r ← request CallGetUserPlaylists (userPlaylists c);
  match r with
  | Failed err => mret ([], Some err)
  | Body data => mret (playlist_of_item <$> data, None)
  end.

(** [CreatePlaylist]. *)
Definition CreatePlaylist (title description : string)
    : M (option Playlist * option error) :=
  r ← request (CallCreatePlaylist title description)
              (λ h, createPlaylist c h title description);
  match r with
  | Failed err => mret (None, Some err)
  | Body data => mret (Some (playlist_of_item data), None)
  end.

(** [UpdatePlaylistMetadata]. *)
Definition UpdatePlaylistMetadata (playlistUUID title description : string)
    : M (option error) :=
  request (CallUpdatePlaylistMetadata playlistUUID title description)
          (λ h, updatePlaylistMetadata c h playlistUUID title description).

(** [SetPlaylistTracks]. *)
Definition SetPlaylistTracks (playlistUUID : string) (trackIDs : list string)
    : M (option error) :=
  request (CallSetPlaylistTracks playlistUUID trackIDs)
          (λ h, setPlaylistTracks c h playlistUUID trackIDs).

(** [DeletePlaylist]. *)
Definition DeletePlaylist (playlistUUID : string) : M (option error) :=
  request (CallDeletePlaylist playlistUUID)
          (λ h, deletePlaylist c h playlistUUID).

(** [FindAllPlaylistsByName]: all playlists with the exact same name. *)
Definition FindAllPlaylistsByName (name : string)
    : M (list Playlist * option error) :=
  '(playlists, err) ← GetUserPlaylists;
  match err with
  | Some e => mret ([], Some (wrap "failed to get user playlists" e))
  | None =>
      let matches :=
        foldl (λ matches playlist,
                 if decide (GetTitle playlist = name)
                 then matches ++ [playlist] else matches) [] playlists in
      mret (matches, None)
  end.

(** The loop [for _, playlist := range existingPlaylists]. *)
Fixpoint deleteExisting (existingPlaylists : list Playlist) : M (option error) :=
  match existingPlaylists with
  | [] => mret None
  | playlist :: rest =>
      err ← DeletePlaylist (Playlist_ID playlist);
      match err with
      | Some e =>
          mret (Some (wrap ("failed to delete playlist " +:+ Playlist_ID playlist) e))
      | None => deleteExisting rest
      end
  end.

Definition batchSize : nat := 20.

(** [trackIDs[i:end]] for [i <= end <= len(trackIDs)]. *)
Definition slice {A} (s : list A) (i end_ : nat) : list A :=
  take (end_ - i) (drop i s).

(** The loop [for i := 0; i < len(trackIDs); i += batchSize], started at
    [i]; [fuel] bounds the number of rounds. *)
Fixpoint addBatches (fuel : nat) (playlist : option Playlist)
    (trackIDs : list string) (i : nat) : M (option error) :=
  match fuel with
  | 0 => mret None
  | S fuel =>
      if decide (i < length trackIDs) then
        let end_ := i + batchSize in
        let end_ := if decide (length trackIDs < end_) then length trackIDs else end_ in
        let batch := slice trackIDs i end_ in
        id ← deref playlist GetID;
        err ← SetPlaylistTracks id batch;
        match err with
        | Some e => mret (Some (wrap "failed to add tracks to playlist" e))
        | None =>
            _ ← Printf ("Added " +:+ fmt_int end_ +:+ " tracks..." +:+ LF);
            addBatches fuel playlist trackIDs (i + batchSize)
        end
      else mret None
  end.

(** [CreateOrUpdatePlaylist]. A round of the last loop moves [i] forward
    by [batchSize], so [len(trackIDs)] rounds are enough. *)
Definition CreateOrUpdatePlaylist (name description : string)
    (trackIDs : list string) : M (option Playlist * option error) :=
  '(existingPlaylists, err) ← FindAllPlaylistsByName name;
  match err with
  | Some e => mret (None, Some (wrap "failed to search for existing playlists" e))
  | None =>
      err ← deleteExisting existingPlaylists;
      match err with
      | Some e => mret (None, Some e)
      | None =>
          _ ← Printf ("Creating new playlist '" +:+ name +:+ "'..." +:+ LF);
          '(playlist, err) ← CreatePlaylist name description;
          match err with
          | Some e => mret (None, Some (wrap "failed to create playlist" e))
          | None =>
              err ← addBatches (length trackIDs) playlist trackIDs 0;
              match err with
              | Some e => mret (None, Some e)
              | None => mret (playlist, None)
              end
          end
      end
  end.

(** The loop of [FindPlaylistByName]: the address of the first playlist
    with the title, or [nil]. *)
Fixpoint firstTitled (name : string) (playlists : list Playlist) : option Playlist :=
  match playlists with
  | [] => None
  | playlist :: playlists =>
      if decide (GetTitle playlist = name) then Some playlist
      else firstTitled name playlists
  end.

(** [FindPlaylistByName] finds a playlist by name. *)
Definition FindPlaylistByName (name : string) : M (option Playlist * option error) :=
  '(playlists, err) ← GetUserPlaylists;
  match err with
  | Some e => mret (None, Some (wrap "failed to get user playlists" e))
  | None => mret (firstTitled name playlists, None)
  end.
End client.

(** ** Package [builder] *)

(** [selectRandomItems]: the loop [for i := 0; i < count; i++] with
    [todo] rounds left. *)
Fixpoint selectLoop {T} (todo : nat) (i : nat) (source result : list T)
    : M (list T) :=
  match todo with
  | 0 => mret result
  | S todo =>
      randomRobert ← Intn (length source);
      item ← index source randomRobert;
      result ← store result i item;
      selectLoop todo (S i) source result
  end.

(** [func selectRandomItems[T any](count int, source []T) []T]. *)
Definition selectRandomItems {T} `{Inhabited T, Allocation T} (count : Z) (source : list T)
    : M (list T) :=
  result ← make count;
  selectLoop (Z.to_nat count) 0 source result.

(** [strings.Compare]: the order of the byte strings. *)
Definition strings_Compare (a b : string) : comparison := String.compare a b.

(** The comparison function handed to [slices.SortFunc], and the order it
    sorts by. *)
Definition artistCmp (a b : ArtistID) : comparison :=
  strings_Compare (ArtistID_ID a) (ArtistID_ID b).

Definition artist_le (a b : ArtistID) : Prop := artistCmp a b ≠ Gt.

Global Instance artist_le_dec : RelDecision artist_le.
Proof. intros a b. unfold artist_le. apply _. Defined.

(** [slices.SortFunc(artists, cmp)]: the slice in ascending order. An
    [ArtistID] is its identifier, so that the sorted slice does not depend
    on the sorting algorithm (see [sortArtists_unique]). *)
Definition sortArtists (artists : list ArtistID) : list ArtistID :=
  merge_sort artist_le artists.

(** [*api.Client] and [*config.Config] of a [Builder]. *)
Record Builder := mkBuilder {
  client : Client;
  config : Config
}.

(** The variables of the loop of [CollectTracks]. *)
Record collectState := mkCollectState {
  lastArtist : string;
  lastAlbums : list Album;
  slots : list (option Track)    (* the slice [result] *)
}.

Section builder.
(** [strings.ToLower], of the Go library. *)
Variable ToLower : string → string.
Variable b : Builder.
(** The limits of the runtime for [[]models.ArtistID] and for
    [[]*models.Track]. *)
Context `{!Allocation ArtistID, !Allocation (option Track)}.

(** [filterByWhitelist] returns only artists in the whitelist. *)
Definition filterByWhitelist (artists : list ArtistID) : list ArtistID :=
  let whitelist : gmap string bool :=
    foldl (λ whitelist name, <[ToLower name := true]> whitelist) ∅
          (Whitelist (Filters (config b))) in
  foldl (λ filtered artist,
           if default false (whitelist !! ToLower (ArtistID_ID artist))
           then filtered ++ [artist] else filtered) [] artists.

(** [filterByBlacklist] returns artists not in the blacklist. *)
Definition filterByBlacklist (artists : list ArtistID) : list ArtistID :=
  let blacklist : gmap string bool :=
    foldl (λ blacklist name, <[ToLower name := true]> blacklist) ∅
          (Blacklist (Filters (config b))) in
  foldl (λ filtered artist,
           if negb (default false (blacklist !! ToLower (ArtistID_ID artist)))
           then filtered ++ [artist] else filtered) [] artists.

(** [FilterArtists] applies whitelist and blacklist filters to artists. *)
Definition FilterArtists (artists : list ArtistID) : list ArtistID :=
  if decide (0 < length (Whitelist (Filters (config b)))) then
    filterByWhitelist artists
  else if decide (0 < length (Blacklist (Filters (config b)))) then
    filterByBlacklist artists
  else artists.

(** A round of [for i, artistId := range artists] in [CollectTracks], in
    its three parts. First the detail of the artist, or the stub. *)
Definition artistDetail (artistId : ArtistID) : M (option Artist) :=
  '(artist, err) ← GetArtist (client b) (ArtistID_ID artistId);
  match err with
  | Some e =>
      id ← deref artist Artist_ID;
      _ ← Printf ("Warning: failed to get more information about the artist "
                  +:+ id +:+ ": " +:+ e +:+ LF);
      mret (Some (mkArtist (ArtistID_ID artistId) ""))
  | None => mret artist
  end.

(** Then the albums: those of the round before when the artist is the
    same, else fetched and kept; [None] when the round ends here by
    [continue]. *)
Definition artistAlbumsCached (artist : option Artist) (st : collectState)
    : M (option collectState) :=
  id ← deref artist Artist_ID;
  if decide (lastArtist st = "" ∨ lastArtist st ≠ id) then
    name ← deref artist Artist_Name;
    _ ← Println (name +:+ " (" +:+ id +:+ ")");
    '(albums, err) ← GetArtistAlbums (client b) id 100;
    if decide (err ≠ None ∨ length albums = 0) then
      _ ← Printf ("Warning: failed to get albums for " +:+ id +:+ ": "
                  +:+ fmt_error err +:+ LF);
      mret None
    else mret (Some (mkCollectState id albums (slots st)))
  else mret (Some st).

(** Last a random track of a random album, put in slot [i]. *)
Definition randomTrackInto (i : nat) (st : collectState) : M collectState :=
  r ← Intn (length (lastAlbums st));
  randomAlbum ← index (lastAlbums st) r;
  _ ← Printf ("  " +:+ Album_Title randomAlbum +:+ " - ");
  '(tracks, err) ← GetAlbumTracks (client b) (Album_ID randomAlbum);
  if decide (err = None ∧ 0 < length tracks) then
    r ← Intn (length tracks);
    randomTrack ← index tracks r;
    result ← store (slots st) i (Some randomTrack);
    _ ← Println (Track_Title randomTrack);
    mret (mkCollectState (lastArtist st) (lastAlbums st) result)
  else mret st.

(** The round; one left by [continue] hands the variables on unchanged. *)
Definition collectStep (i : nat) (artistId : ArtistID) (st : collectState)
    : M collectState :=
  artist ← artistDetail artistId;
  fetched ← artistAlbumsCached artist st;
  match fetched with
  | None => mret st
  | Some st => randomTrackInto i st
  end.

Fixpoint collectLoop (i : nat) (artists : list ArtistID) (st : collectState)
    : M collectState :=
  match artists with
  | [] => mret st
  | artistId :: artists =>
      st ← collectStep i artistId st;
      collectLoop (S i) artists st
  end.

(** [CollectTracks]. The slice [artists] is sorted in place: next to the
    two results, the computation returns the slice as the caller finds
    it afterwards. *)
Definition CollectTracks (artists : list ArtistID)
    : M (list ArtistID * (list (option Track) * option error)) :=
  result ← make (A := option Track) (Z.of_nat (length artists));
  let artists := sortArtists artists in
  st ← collectLoop 0 artists (mkCollectState "" [] result);
  mret (artists, (slots st, None)).

(** The preview loop of the dry run, at index [i]. *)
Fixpoint previewLoop (i : nat) (finalTracks : list Track) : M unit :=
  match finalTracks with
  | [] => mret ()
  | track :: finalTracks =>
      if decide (10 ≤ i) then mret ()
      else
        let artistNames :=
          match Track_Artists track with
          | first :: _ => Artist_Name first
          | [] => ""
          end in
        _ ← Printf ("  " +:+ fmt_int (i + 1) +:+ ". " +:+ artistNames +:+ " - "
                    +:+ Track_Title track +:+ LF);
        previewLoop (S i) finalTracks
  end.

(** The loop that drops the [nil] slots. *)
Definition compact (tracks : list (option Track)) : list Track :=
  foldl (λ finalTracks track,
           match track with
           | None => finalTracks
           | Some t => finalTracks ++ [t]
           end) [] tracks.

(** [BuildPlaylist] orchestrates the entire playlist generation process. *)
Definition BuildPlaylist (playlistName : string) (dryRun : bool)
    : M (option error) :=
  _ ← Println ("Fetching favorite artists..." +:+ LF);
  '(artists, err) ← GetFavoriteArtists (client b);
  match err with
  | Some e => mret (Some (wrap "failed to fetch favorite artists" e))
  | None =>
  _ ← Printf ("Found " +:+ fmt_int (length artists) +:+ " favorite artists" +:+ LF);
  let filteredArtists := FilterArtists artists in
  _ ← Printf ("After filtering: " +:+ fmt_int (length filteredArtists)
              +:+ " artists" +:+ LF);
  if decide (length filteredArtists = 0) then
    mret (Some "no artists remaining after filtering")
  else
  selectedArtists ← selectRandomItems (Count (Playlist_ (config b))) filteredArtists;
  _ ← Println (LF +:+ "Collecting tracks from artists...");
  '(_, (tracks, err)) ← CollectTracks selectedArtists;
  match err with
  | Some e => mret (Some (wrap "failed to collect tracks" e))
  | None =>
  _ ← Printf (LF +:+ "Collected " +:+ fmt_int (length tracks) +:+ " total tracks" +:+ LF);
  if decide (length tracks = 0) then
    mret (Some "no tracks collected from artists")
  else
  let finalTracks := compact tracks in
  _ ← Printf ("Final track count: " +:+ fmt_int (length finalTracks) +:+ LF);
  if dryRun then
    _ ← Println (LF +:+ "=== DRY RUN MODE ===");
    _ ← Printf ("Would create/update playlist '" +:+ playlistName +:+ "' with "
                +:+ fmt_int (length finalTracks) +:+ " tracks" +:+ LF);
    _ ← Println (LF +:+ "Tracks:");
    _ ← previewLoop 0 finalTracks;
    _ ← Println "  ...";
    mret None
  else
  let trackIDs := Track_ID <$> finalTracks in
  _ ← Printf (LF +:+ "Creating/updating playlist '" +:+ playlistName +:+ "'..." +:+ LF);
  '(playlist, err) ← CreateOrUpdatePlaylist (client b) playlistName
                       "Generated by tidal-playlist" trackIDs;
  match err with
  | Some e => mret (Some (wrap "failed to create/update playlist" e))
  | None =>
  title ← deref playlist GetTitle;
  _ ← Printf (LF +:+ "✓ Success! Playlist '" +:+ title +:+ "' created/updated with "
              +:+ fmt_int (length trackIDs) +:+ " tracks" +:+ LF);
  mret None
  end end end.
End builder.

(** ** Vocabulary of the statements *)

(** The items [selectRandomItems] reads off a tape in [todo] rounds. *)
Fixpoint picks {T} `{Inhabited T} (source : list T) (todo : nat) (tape : list nat)
    : list T :=
  match todo with
  | 0 => []
  | S todo => (source !!! (hd 0 tape `mod` length source)) :: picks source todo (tl tape)
  end.

(** An artist matches a list of names when its identifier equals one of
    them after lowering both: the case-insensitive match of the filters. *)
Definition matches (ToLower : string → string) (names : list string)
    (a : ArtistID) : Prop :=
  Exists (λ name, ToLower name = ToLower (ArtistID_ID a)) names.

Global Instance matches_dec ToLower names a : Decision (matches ToLower names a).
Proof. unfold matches. apply _. Defined.

(** [strings.ToLower] on ASCII text, for the examples. *)
Definition lower_byte (c : Ascii.ascii) : Ascii.ascii :=
  let n := Ascii.nat_of_ascii c in
  if decide (65 ≤ n ∧ n ≤ 90) then Ascii.ascii_of_nat (n + 32) else c.

Fixpoint ascii_ToLower (s : string) : string :=
  match s with
  | EmptyString => EmptyString
  | String c s => String (lower_byte c) (ascii_ToLower s)
  end.

(** The batches of a track list: batch [k] holds the identifiers at the
    positions from [batchSize * k] up to, not including,
    [batchSize * (k + 1)]. *)
Definition batch (trackIDs : list string) (k : nat) : list string :=
  take batchSize (drop (batchSize * k) trackIDs).

Definition batchCount (trackIDs : list string) : nat :=
  (length trackIDs + (batchSize - 1)) / batchSize.

Definition batches (trackIDs : list string) : list (list string) :=
  batch trackIDs <$> seq 0 (batchCount trackIDs).

(** The track lists of the write calls of a log, oldest first. *)
Definition written (log : list Call) : list (list string) :=
  omap (λ c, match c with
             | CallSetPlaylistTracks _ trackIDs => Some trackIDs
             | _ => None
             end) log.

(** The playlists the service lists when it has received the calls [h]. *)
Definition listed (c : Client) (h : list Call) : list Playlist :=
  match userPlaylists c h with
  | Body data => playlist_of_item <$> data
  | Failed _ => []
  end.

(** A service on which no request of the upsert fails. *)
Definition upsert_succeeds (c : Client) : Prop :=
  (∀ h, ∃ data, userPlaylists c h = Body data) ∧
  (∀ h id, deletePlaylist c h id = None) ∧
  (∀ h title description, ∃ item, createPlaylist c h title description = Body item) ∧
  (∀ h id trackIDs, setPlaylistTracks c h id trackIDs = None).

(** The calls of an upsert of [name] that runs to its end, in order: the
    listing, the deletion of the playlists [existing], the creation, and
    the batches written to the playlist [id]. *)
Definition upsert_calls (existing : list Playlist) (name description : string)
    (id : string) (trackIDs : list string) : list Call :=
  CallGetUserPlaylists ::
  (CallDeletePlaylist ∘ Playlist_ID <$> existing) ++
  [CallCreatePlaylist name description] ++
  (CallSetPlaylistTracks id <$> batches trackIDs).

(** A log of requests that only read. *)
Definition reads (log : list Call) : Prop :=
  Forall (λ call, is_mutation call = false) log.

(** [t] is a track of the artist [a]: a track of an album among those the
    service lists for the artist it describes under the identifier of [a]. *)
Definition track_of (c : Client) (a : ArtistID) (t : Track) : Prop :=
  ∃ h1 described h2 albums album h3 tracks,
    artist c h1 (ArtistID_ID a) = Body described ∧
    artistAlbums c h2 (Artist_ID described) = Body albums ∧ album ∈ albums ∧
    albumTracks c h3 (Album_ID album) = Body tracks ∧ t ∈ tracks.

(** [albums] is a non-empty part of the albums the service lists for [id]. *)
Definition albums_of (c : Client) (id : string) (albums : list Album) : Prop :=
  albums ≠ [] ∧ ∃ h listed, artistAlbums c h id = Body listed ∧ albums ⊆ listed.


(** The invariant of the loop of [CollectTracks]: the albums kept from an
    earlier round are those of the artist kept with them. *)
Definition cached (c : Client) (st : collectState) : Prop :=
  lastArtist st ≠ "" → albums_of c (lastArtist st) (lastAlbums st).

(** The two halves of [BuildPlaylist]. [gather] runs it up to the line
    that prints the final track count and yields the error it returns
    until there, or the final track list; [deliver] is what follows. The
    lemma [BuildPlaylist_stages] puts them together again. *)
Section stages.
Variable ToLower : string → string.
Variable b : Builder.
Context `{!Allocation ArtistID, !Allocation (option Track)}.

Definition gather : M (error + list Track) :=
  _ ← Println ("Fetching favorite artists..." +:+ LF);
  '(artists, err) ← GetFavoriteArtists (client b);
  match err with
  | Some e => mret (inl (wrap "failed to fetch favorite artists" e))
  | None =>
  _ ← Printf ("Found " +:+ fmt_int (length artists) +:+ " favorite artists" +:+ LF);
  let filteredArtists := FilterArtists ToLower b artists in
  _ ← Printf ("After filtering: " +:+ fmt_int (length filteredArtists)
              +:+ " artists" +:+ LF);
  if decide (length filteredArtists = 0) then
    mret (inl "no artists remaining after filtering")
  else
  selectedArtists ← selectRandomItems (Count (Playlist_ (config b))) filteredArtists;
  _ ← Println (LF +:+ "Collecting tracks from artists...");
  '(_, (tracks, err)) ← CollectTracks b selectedArtists;
  match err with
  | Some e => mret (inl (wrap "failed to collect tracks" e))
  | None =>
  _ ← Printf (LF +:+ "Collected " +:+ fmt_int (length tracks) +:+ " total tracks" +:+ LF);
  if decide (length tracks = 0) then
    mret (inl "no tracks collected from artists")
  else
  let finalTracks := compact tracks in
  _ ← Printf ("Final track count: " +:+ fmt_int (length finalTracks) +:+ LF);
  mret (inr finalTracks)
  end end.

Definition deliver (playlistName : string) (dryRun : bool)
    (finalTracks : list Track) : M (option error) :=
  if dryRun then
    _ ← Println (LF +:+ "=== DRY RUN MODE ===");
    _ ← Printf ("Would create/update playlist '" +:+ playlistName +:+ "' with "
                +:+ fmt_int (length finalTracks) +:+ " tracks" +:+ LF);
    _ ← Println (LF +:+ "Tracks:");
    _ ← previewLoop 0 finalTracks;
    _ ← Println "  ...";
    mret None
  else
  let trackIDs := Track_ID <$> finalTracks in
  _ ← Printf (LF +:+ "Creating/updating playlist '" +:+ playlistName +:+ "'..." +:+ LF);
  '(playlist, err) ← CreateOrUpdatePlaylist (client b) playlistName
                       "Generated by tidal-playlist" trackIDs;
  match err with
  | Some e => mret (Some (wrap "failed to create/update playlist" e))
  | None =>
  title ← deref playlist GetTitle;
  _ ← Printf (LF +:+ "✓ Success! Playlist '" +:+ title +:+ "' created/updated with "
              +:+ fmt_int (length trackIDs) +:+ " tracks" +:+ LF);
  mret None
  end.
End stages.

(** The lines of the preview of a dry run: for each of the first 10
    tracks its rank from 1, the name of its first listed artist, if any,
    and its title. *)
Definition preview (finalTracks : list Track) : list string :=
  imap (λ i track,
          "  " +:+ fmt_int (i + 1) +:+ ". " +:+
          match Track_Artists track with
          | first :: _ => Artist_Name first
          | [] => ""
          end +:+ " - " +:+ Track_Title track +:+ LF)
       (take 10 finalTracks).

(** ** Services and configurations of the examples *)

(** The limits of the runtime in the examples, those of linux/amd64:
    [maxAlloc] is [2^48], an [ArtistID] takes 16 bytes and a pointer 8. *)
Global Instance ArtistID_allocation : Allocation ArtistID := (2 ^ 48 / 16)%Z.
Global Instance pointer_allocation {A} : Allocation (option A) := (2 ^ 48 / 8)%Z.

Module demo.
(** A service on which nothing fails: an artist has one album, an album
    one track, each named after what it belongs to; the user has a
    playlist [Mix], another one, and a second [Mix]. *)
Definition album_of (id : string) : Album :=
  mkAlbum ("album-" +:+ id) ("Album of " +:+ id) [] "" 0.

Definition track_on (id : string) : Track :=
  mkTrack ("track-" +:+ id) ("Track on " +:+ id) 0 0 "" "" [].

Definition favorites : list ArtistID :=
  [mkArtistID "B2"; mkArtistID "a1"; mkArtistID "C3"].

Definition playlists : list PlaylistItem :=
  [mkPlaylistItem "p1" "Mix" "old"; mkPlaylistItem "p2" "Other" "";
   mkPlaylistItem "p3" "Mix" "older"].

Definition service : Remote := {|
  favoriteArtists := λ _, Body favorites;
  artist := λ _ id, Body (mkArtist id ("Artist " +:+ id));
  artistAlbums := λ _ id, Body [album_of id];
  albumTracks := λ _ id, Body [track_on id];
  userPlaylists := λ _, Body playlists;
  createPlaylist := λ _ title description, Body (mkPlaylistItem "new" title description);
  updatePlaylistMetadata := λ _ _ _ _, None;
  setPlaylistTracks := λ _ _ _, None;
  deletePlaylist := λ _ _, None
|}.

(** The same service when the detail of an artist cannot be fetched. *)
Definition no_detail : Remote := {|
  favoriteArtists := favoriteArtists service;
  artist := λ _ _, Failed "failed to fetch artist: HTTP error 404: ";
  artistAlbums := artistAlbums service;
  albumTracks := albumTracks service;
  userPlaylists := userPlaylists service;
  createPlaylist := createPlaylist service;
  updatePlaylistMetadata := updatePlaylistMetadata service;
  setPlaylistTracks := setPlaylistTracks service;
  deletePlaylist := deletePlaylist service
|}.

(** The same service when the tracks of an album cannot be fetched. *)
Definition no_tracks : Remote := {|
  favoriteArtists := favoriteArtists service;
  artist := artist service;
  artistAlbums := artistAlbums service;
  albumTracks := λ _ _, Failed "failed to fetch album tracks: HTTP error 500: ";
  userPlaylists := userPlaylists service;
  createPlaylist := createPlaylist service;
  updatePlaylistMetadata := updatePlaylistMetadata service;
  setPlaylistTracks := setPlaylistTracks service;
  deletePlaylist := deletePlaylist service
|}.

Definition filters (whitelist blacklist : list string) (count : Z) : Config :=
  mkConfig (mkTidalConfig "id" "secret" "US")
           (mkPlaylistConfig "My Artists Mix" count)
           (mkFiltersConfig blacklist whitelist).

(** The start of a run: nothing sent, nothing printed. *)
Definition start (tape : list nat) : World := mkWorld tape [] [].

(** 45 track identifiers, ["0"] to ["44"]. *)
Definition ids45 : list string := pretty <$> seq 0 45.

(** Builders: on the service where nothing fails, without filters and
    with the blacklist [b2]; on the two failing services. *)
Definition plain : Builder := mkBuilder service (filters [] [] 2).
Definition without_b2 : Builder := mkBuilder service (filters [] ["b2"] 2).
Definition nobody : Builder := mkBuilder service (filters ["nobody"] [] 2).
Definition both_lists : Builder := mkBuilder service (filters ["A1"; "c3"] ["a1"] 2).
Definition detail_fails : Builder := mkBuilder no_detail (filters [] [] 3).
Definition tracks_fail : Builder := mkBuilder no_tracks (filters [] [] 2).
End demo.

(** ** The decoding of the included items *)

(** An element of the [included] array of an artist or album response. *)
Record Included := mkIncluded {
  Included_ID : string;
  Included_Type : string;
  Included_Title : string
}.

(** The loop of [GetArtistAlbums] over the included items: an album, of
    identifier and title only, for each item of type [albums]. *)
Definition albumsOfIncluded (included : list Included) : list Album :=
  foldl (λ albums item,
           if decide (Included_Type item = "albums")
           then albums ++ [mkAlbum (Included_ID item) (Included_Title item) [] "" 0]
           else albums) [] included.

(** The loop of [GetAlbumTracks]: a track, of identifier and title only,
    for each item of type [tracks]. *)
Definition tracksOfIncluded (included : list Included) : list Track :=
  foldl (λ tracks item,
           if decide (Included_Type item = "tracks")
           then tracks ++ [mkTrack (Included_ID item) (Included_Title item) 0 0 "" "" []]
           else tracks) [] included.

(** A client as the program has it: what it takes for the albums of an
    artist and the tracks of an album is decoded by the two loops. *)
Definition decodes (c : Client) : Prop :=
  (∀ h id albums, artistAlbums c h id = Body albums →
     ∃ included, albums = albumsOfIncluded included) ∧
  (∀ h id tracks, albumTracks c h id = Body tracks →
     ∃ included, tracks = tracksOfIncluded included).

(** ** The command [create] *)

Section create.
Variable ToLower : string → string.
(** The service behind the client that [api.NewClient] builds. *)
Variable service : Remote.
Context `{!Allocation ArtistID, !Allocation (option Track)}.

(** The count of the configuration, replaced by the flag [--count] when
    that is positive. *)
Definition overrideCount (cfg : Config) (count : Z) : Config :=
  if decide (0 < count)%Z then
    mkConfig (Tidal cfg) (mkPlaylistConfig (DefaultName (Playlist_ cfg)) count)
             (Filters cfg)
  else cfg.

(** The name of the playlist: the argument, else the flag [--name], else
    the default of the configuration. *)
Definition playlistNameOf (cfg : Config) (args : list string) (playlistName : string)
    : string :=
  match args with
  | arg :: _ => arg
  | [] => if decide (playlistName ≠ "") then playlistName
          else DefaultName (Playlist_ cfg)
  end.

(** [RunE] of [createCmd], from what [config.Load] returned. *)
Definition createRunE (loaded : error + Config) (args : list string)
    (playlistName : string) (count : Z) (dryRun : bool) : M (option error) :=
  match loaded with
  | inl e => mret (Some (wrap "failed to load config" e))
  | inr cfg =>
      match Validate cfg with
      | Some e => mret (Some (wrap "invalid config" e))
      | None =>
          let cfg := overrideCount cfg count in
          let name := playlistNameOf cfg args playlistName in
          let b := mkBuilder service cfg in
          err ← BuildPlaylist ToLower b name dryRun;
          match err with
          | Some e => mret (Some (wrap "failed to build playlist" e))
          | None => mret None
          end
      end
  end.
End create.

(** ** More vocabulary *)

(** The identifiers of the album requests and of the detail requests of a
    log, oldest first. *)
Definition albumRequests (log : list Call) : list string :=
  omap (λ c, match c with CallGetArtistAlbums id => Some id | _ => None end) log.

Definition detailRequests (log : list Call) : list string :=
  omap (λ c, match c with CallGetArtist id => Some id | _ => None end) log.

Definition trackRequests (log : list Call) : list string :=
  omap (λ c, match c with CallGetAlbumTracks id => Some id | _ => None end) log.

(** The identifiers for which the loop of [CollectTracks] asks for albums
    when the service echoes the identifiers and has albums for each: those
    that differ from the one before, [prev], and the empty ones. *)
Fixpoint fetched (prev : string) (ids : list string) : list string :=
  match ids with
  | [] => []
  | id :: ids =>
      (if decide (prev = "" ∨ prev ≠ id) then [id] else []) ++ fetched id ids
  end.

(** A service that describes every artist under the identifier asked for,
    and lists at least one album for every artist. *)
Definition echoes (c : Client) : Prop :=
  ∀ h id, ∃ name, artist c h id = Body (mkArtist id name).

Definition has_albums (c : Client) : Prop :=
  ∀ h id, ∃ albums, artistAlbums c h id = Body albums ∧ albums ≠ [].

(** The artists the filters let through: in whitelist mode those that
    match the whitelist, else those that do not match the blacklist. *)
Definition passes (ToLower : string → string) (cfg : Config) (a : ArtistID) : Prop :=
  if decide (Whitelist (Filters cfg) = []) then ¬ matches ToLower (Blacklist (Filters cfg)) a
  else matches ToLower (Whitelist (Filters cfg)) a.

Global Instance passes_dec ToLower cfg a : Decision (passes ToLower cfg a).
Proof. unfold passes. destruct (decide (Whitelist (Filters cfg) = [])); apply _. Defined.

(** Two lists of names with the same lowered names. *)
Definition same_names (ToLower : string → string) (names1 names2 : list string) : Prop :=
  ∀ k, k ∈ ToLower <$> names1 ↔ k ∈ ToLower <$> names2.

Module demo2.
(** The whitelist of [demo.both_lists] in another order and case, with a
    repeated entry. *)
Definition reordered : Builder :=
  mkBuilder demo.service (demo.filters ["C3"; "a1"; "c3"] ["A1"] 2).
End demo2.

(** The order of the identifiers the artists are sorted by. *)
Definition id_le (x y : string) : Prop := strings_Compare x y ≠ Gt.

Module demo3.
(** Three sampled artists, one of them drawn twice. *)
Definition drawn : list ArtistID := [mkArtistID "a1"; mkArtistID "B2"; mkArtistID "a1"].
End demo3.

(** A preview line without the name of an artist. *)
Definition previewLineBlank (i : nat) (track : Track) : string :=
  "  " +:+ fmt_int (i + 1) +:+ ". " +:+ "" +:+ " - " +:+ Track_Title track +:+ LF.

Module demo4.
(** A configuration without a count, as [config.Load] leaves it when the
    file sets none. *)
Definition no_count : Config := demo.filters [] [] 0.
End demo4.

(** ** The pages of [GetFavoriteArtists] *)

(** [GetFavoriteArtists] in detail: the request for the identifier of the
    user, then one request per page of the collection, each with the
    cursor the page before gave. The read [favoriteArtists] of a [Remote]
    stands for the outcome of this loop. *)
Module paging.

(** The requests: [/v2/users/me], and a page of the artists of the
    collection, without cursor when [cursor] is empty. *)
Inductive Request :=
| UsersMe
| ArtistsPage (userID cursor : string).

(** The decoded body of a page: [data] and [links.meta.nextCursor]. *)
Record Page := mkPage {
  Data : list ArtistID;
  NextCursor : string
}.

(** The service, answering from the requests received before: to
    [UsersMe] the identifier under [data.id] and the text of the body, to
    a page request the page. *)
Record Service := mkService {
  usersMe : list Request → response (string * string);
  artistsPage : list Request → string → string → response Page
}.

(** [GetUserID]; a body without identifier is an error. *)
Definition GetUserID (srv : Service) (h : list Request)
    : (string * option error) * list Request :=
  match usersMe srv h with
  | Failed err => (("", Some err), h ++ [UsersMe])
  | Body (id, body) =>
      if decide (id = "") then
        (("", Some ("no user ID in response: " +:+ body)), h ++ [UsersMe])
      else ((id, None), h ++ [UsersMe])
  end.

(** The loop [for { ... }] of [GetFavoriteArtists], entered with [cursor]
    and [allArtists]; [None] when it is still running after [fuel]
    rounds. *)
Fixpoint pages (srv : Service) (userID : string) (fuel : nat) (cursor : string)
    (allArtists : list ArtistID) (h : list Request)
    : option ((list ArtistID * option error) * list Request) :=
  match fuel with
  | 0 => None
  | S fuel =>
      let h' := h ++ [ArtistsPage userID cursor] in
      match artistsPage srv h userID cursor with
      | Failed err => Some (([], Some err), h')
      | Body apiResp =>
          let allArtists := allArtists ++ Data apiResp in
          if decide (NextCursor apiResp = "") then Some ((allArtists, None), h')
          else pages srv userID fuel (NextCursor apiResp) allArtists h'
      end
  end.

(** [GetFavoriteArtists] retrieves all favorite artists of the user. *)
Definition GetFavoriteArtists (srv : Service) (fuel : nat) (h : list Request)
    : option ((list ArtistID * option error) * list Request) :=
  let '((userID, err), h) := GetUserID srv h in
  match err with
  | Some e => Some (([], Some (wrap "failed to get user ID" e)), h)
  | None => pages srv userID fuel "" [] h
  end.

(** The pages the service serves from [cursor] on, when it has received
    [h], down to the first page without a next cursor. *)
Inductive served (srv : Service) (userID : string)
    : list Request → string → list Page → Prop :=
| served_last h cursor page :
    artistsPage srv h userID cursor = Body page → NextCursor page = "" →
    served srv userID h cursor [page]
| served_next h cursor page rest :
    artistsPage srv h userID cursor = Body page → NextCursor page ≠ "" →
    served srv userID (h ++ [ArtistsPage userID cursor]) (NextCursor page) rest →
    served srv userID h cursor (page :: rest).

(** The cursors of the requests for pages: none for the first, then the
    next cursor of each page but the last. *)
Definition cursors (served : list Page) : list string :=
  "" :: (NextCursor <$> take (length served - 1) served).

(** A service with three pages, and one that always names a next page. *)
Definition three_pages : Service := {|
  usersMe := λ _, Body ("u1", "{}");
  artistsPage := λ _ _ cursor,
    if decide (cursor = "") then Body (mkPage [mkArtistID "B2"; mkArtistID "a1"] "c1")
    else if decide (cursor = "c1") then Body (mkPage [] "c2")
    else Body (mkPage [mkArtistID "C3"] "")
|}.

Definition endless : Service := {|
  usersMe := λ _, Body ("u1", "{}");
  artistsPage := λ _ _ cursor, Body (mkPage [mkArtistID "a1"] (cursor +:+ "+"))
|}.

Definition broken_third_page : Service := {|
  usersMe := λ _, Body ("u1", "{}");
  artistsPage := λ _ _ cursor,
    if decide (cursor = "") then Body (mkPage [mkArtistID "B2"; mkArtistID "a1"] "c1")
    else if decide (cursor = "c1") then Body (mkPage [] "c2")
    else Failed "failed to fetch favorite artists: HTTP error 500: "
|}.
End paging.

Module demo5.
(** The service of [demo] when the albums of an artist cannot be
    fetched. *)
Definition no_albums : Remote := {|
  favoriteArtists := favoriteArtists demo.service;
  artist := artist demo.service;
  artistAlbums := λ _ _, Failed "failed to fetch artist albums: HTTP error 500: ";
  albumTracks := albumTracks demo.service;
  userPlaylists := userPlaylists demo.service;
  createPlaylist := createPlaylist demo.service;
  updatePlaylistMetadata := updatePlaylistMetadata demo.service;
  setPlaylistTracks := setPlaylistTracks demo.service;
  deletePlaylist := deletePlaylist demo.service
|}.

Definition albums_fail : Builder := mkBuilder no_albums (demo.filters [] [] 2).
End demo5.

(** ** Package [api]: the token of the [AuthManager] *)

Module auth.

(** [oauth2.Token] and [models.OAuth2Token], by the four fields the
    program reads and stores; an instant is its number of nanoseconds. *)
Record Token := mkToken {
  AccessToken : string;
  RefreshToken_ : string;
  TokenType : string;
  Expiry : Z
}.

(** What [LoadToken] finds under [tokenFile]: a file [os.ReadFile] cannot
    read, one [json.Unmarshal] cannot decode, or a stored token. *)
Inductive File :=
| Unreadable (err : error)
| Undecodable (err : error)
| Stored (token : Token).

(** The body of a successful client-credentials request. *)
Record TokenResponse := mkTokenResponse {
  access_token : string;
  token_type : string;
  ExpiresIn : Z
}.

(** What the manager asks of the outside: the POST to the token URL, and
    [Token()] of the token source of the [oauth2] library. *)
Inductive Call :=
| PostCredentials
| TokenSourceToken (token : Token).

(** The outside, answering from the calls received before: to the POST
    the error of [client.Do], or the status with the decoded body or the
    error of the decoder; to the token source a token or its error; to
    [SaveToken] the error of [os.MkdirAll] or [os.WriteFile] with the file
    that is left behind. *)
Record Env := mkEnv {
  credentials : list Call → response (Z * response TokenResponse);
  tokenSource : list Call → Token → response Token;
  save : File → Token → option (error * File)
}.

(** The file, the readings [time.Now] has still to give, and the calls
    made. *)
Record World := mkWorld {
  file : File;
  clock : list Z;
  sent : list Call
}.

Definition A (X : Type) : Type := World → X * World.

#[export] Instance A_ret : MRet A := λ X x w, (x, w).
#[export] Instance A_bind : MBind A := λ X Y f m w,
  let '(x, w) := m w in f x w.

Definition Now : A Z := λ w,
  (hd 0%Z (clock w), mkWorld (file w) (tl (clock w)) (sent w)).

Definition ask {X} (c : Call) (answer : list Call → X) : A X := λ w,
  (answer (sent w), mkWorld (file w) (clock w) (sent w ++ [c])).

Definition ReadFile : A File := λ w, (file w, w).

(** [time.Duration(n) * time.Second], a product of 64-bit integers. *)
Definition Second : Z := 1000000000.
Definition Minute : Z := 60 * Second.
Definition int64 (z : Z) : Z := ((z + 2 ^ 63) `mod` 2 ^ 64 - 2 ^ 63)%Z.
Definition seconds (n : Z) : Z := int64 (n * Second).

Section manager.
Variable env : Env.

(** [SaveToken] saves an OAuth token to file. *)
Definition SaveToken (token : Token) : A (option error) := λ w,
  match save env (file w) token with
  | Some (err, remains) => (Some err, mkWorld remains (clock w) (sent w))
  | None => (None, mkWorld (Stored token) (clock w) (sent w))
  end.

(** [LoginWithClientCredentials] uses the client credentials flow. *)
Definition LoginWithClientCredentials : A (option Token * option error) :=
  resp ← ask PostCredentials (credentials env);
  match resp with
  | Failed err => mret (None, Some (wrap "failed to execute request" err))
  | Body (StatusCode, body) =>
      if decide (StatusCode ≠ 200%Z) then
        mret (None, Some ("authentication failed with status " +:+ pretty StatusCode))
      else
        match body with
        | Failed err => mret (None, Some (wrap "failed to parse response" err))
        | Body tokenResp =>
            now ← Now;
            let token := mkToken (access_token tokenResp) "" (token_type tokenResp)
                                 (now + seconds (ExpiresIn tokenResp)) in
            err ← SaveToken token;
            match err with
            | Some err => mret (None, Some (wrap "failed to save token" err))
            | None => mret (Some token, None)
            end
        end
  end.

(** [RefreshToken] refreshes an expired OAuth token. *)
Definition RefreshToken (token : Token) : A (option Token * option error) :=
  if decide (RefreshToken_ token = "") then LoginWithClientCredentials
  else
    newToken ← ask (TokenSourceToken token) (λ h, tokenSource env h token);
    match newToken with
    | Failed err => mret (None, Some (wrap "failed to refresh token" err))
    | Body newToken =>
        err ← SaveToken newToken;
        match err with
        | Some err => mret (None, Some (wrap "failed to save refreshed token" err))
        | None => mret (Some newToken, None)
        end
    end.

(** [LoadToken] loads a saved OAuth token from file. *)
Definition LoadToken : A (option Token * option error) :=
  data ← ReadFile;
  match data with
  | Unreadable err => mret (None, Some err)
  | Undecodable err => mret (None, Some err)
  | Stored token =>
      now ← Now;
      if decide ((Expiry token < now)%Z ∧ RefreshToken_ token ≠ "") then
        RefreshToken token
      else mret (Some token, None)
  end.

(** [GetValidToken] returns a valid token, refreshing if necessary. Go's
    [token] is not nil where [err] is. *)
Definition GetValidToken : A (option Token * option error) :=
  '(token, err) ← LoadToken;
  match err, token with
  | Some err, _ =>
      mret (None, Some (wrap "no saved token found, please run 'tidal-playlist auth' first" err))
  | None, None => mret (None, None)
  | None, Some token =>
      now ← Now;
      if decide (Expiry token < now + Minute)%Z then RefreshToken token
      else mret (Some token, None)
  end.
End manager.

(** A file with a token of the client-credentials flow that has an hour
    to live at instant 0, one that has ten seconds, and one with a refresh
    token that is a second old. *)
Definition fresh : Token := mkToken "t0" "" "Bearer" (3600 * Second).
Definition ending : Token := mkToken "t0" "" "Bearer" (10 * Second).
Definition expired : Token := mkToken "t0" "r0" "Bearer" (- Second).

(** An outside whose login grants an hour and whose token source gives a
    token without refresh token that is about to end. *)
Definition outside : Env := {|
  credentials := λ _, Body (200%Z, Body (mkTokenResponse "t1" "Bearer" 3600));
  tokenSource := λ _ _, Body (mkToken "t2" "" "Bearer" (30 * Second));
  save := λ _ _, None
|}.

Definition at_zero (t : Token) : World := mkWorld (Stored t) [0%Z; 0%Z; 0%Z] [].
End auth.

(** * Properties *)

(** ** The monad *)

Lemma run_bind {A B} (m : M A) (f : A → M B) (w : World) :
  (m ≫= f) w = match m w with
                | (Val a, w') => f a w'
                | (Panic p, w') => (Panic p, w')
                end.
Proof. reflexivity. Qed.

Lemma run_ret {A} (a : A) (w : World) : mret (M := M) a w = (Val a, w).
Proof. reflexivity. Qed.

Lemma run_Intn (n : nat) (w : World) :
  n ≠ 0 →
  Intn n w = (Val (hd 0 (tape w) `mod` n), mkWorld (tl (tape w)) (calls w) (stdout w)).
Proof. intros Hn. unfold Intn. by rewrite decide_False. Qed.

Lemma run_index {A} (s : list A) (i : nat) (x : A) (w : World) :
  s !! i = Some x → index s i w = (Val x, w).
Proof. intros Hx. unfold index. by rewrite Hx. Qed.

Lemma run_store {A} (s : list A) (i : nat) (x : A) (w : World) :
  i < length s → store s i x w = (Val (<[i := x]> s), w).
Proof. intros Hi. unfold store. by rewrite decide_True. Qed.

Lemma run_request {A} (c : Call) (answer : list Call → A) (w : World) :
  request c answer w =
    (Val (answer (calls w)), mkWorld (tape w) (calls w ++ [c]) (stdout w)).
Proof. reflexivity. Qed.

Lemma run_Printf (text : string) (w : World) :
  Printf text w = (Val (), mkWorld (tape w) (calls w) (stdout w ++ [text])).
Proof. reflexivity. Qed.

Lemma run_Println (text : string) (w : World) :
  Println text w = (Val (), mkWorld (tape w) (calls w) (stdout w ++ [text +:+ LF])).
Proof. reflexivity. Qed.

Lemma run_bind_assoc {A B C} (m : M A) (f : A → M B) (g : B → M C) (w : World) :
  ((m ≫= f) ≫= g) w = (m ≫= λ a, f a ≫= g) w.
Proof. rewrite !run_bind. by destruct (m w) as [[a|p] w']. Qed.

Lemma run_bind_ext {A B} (m : M A) (f g : A → M B) (w : World) :
  (∀ a w', f a w' = g a w') → (m ≫= f) w = (m ≫= g) w.
Proof. intros Hfg. rewrite !run_bind. by destruct (m w) as [[a|p] w']. Qed.

(** Passes the first action of two sequences that start alike, the second
    one nested to the left. *)
Tactic Notation "mnext" "as" simple_intropattern(pat) :=
  rewrite run_bind_assoc; apply run_bind_ext; intros pat ?.

(** Runs the first action of a sequence when it is one of the above. *)
Ltac mstep :=
  rewrite run_bind;
  first [rewrite run_ret | rewrite run_Printf | rewrite run_Println
        | rewrite run_request];
  cbv beta iota; cbn [tape calls stdout].

(** ** [selectRandomItems] *)

Section select.
Context {T : Type} `{Inhabited T, Allocation T}.

Lemma selectLoop_run (source : list T) (todo : nat) :
  source ≠ [] →
  ∀ (i : nat) (result : list T) (w : World),
    i + todo ≤ length result →
    selectLoop todo i source result w =
      (Val (take i result ++ picks source todo (tape w) ++ drop (i + todo) result),
       mkWorld (drop todo (tape w)) (calls w) (stdout w)).
Proof.
  intros Hsrc. induction todo as [|todo IH]; intros i result w Hlen.
  - simpl. rewrite Nat.add_0_r, take_drop. by destruct w.
  - assert (HM : length source ≠ 0) by by destruct source.
    cbn [selectLoop]. rewrite run_bind, (run_Intn _ _ HM).
    set (r := hd 0 (tape w) `mod` length source).
    assert (Hr : r < length source) by by apply Nat.mod_upper_bound.
    destruct (lookup_lt_is_Some_2 source r Hr) as [x Hx].
    rewrite run_bind, (run_index _ _ _ _ Hx).
    rewrite run_bind, run_store by lia.
    rewrite IH by (rewrite length_insert; lia). cbn [tape calls stdout picks].
    rewrite (list_lookup_total_correct _ _ _ Hx).
    f_equal; [f_equal|].
    + rewrite take_S_r with (x := x) by (apply list_lookup_insert_eq; lia).
      rewrite take_insert_ge by lia. rewrite <- app_assoc. simpl.
      rewrite drop_insert_lt by lia. do 3 f_equal. f_equal. lia.
    + f_equal. destruct (tape w); simpl; [by rewrite drop_nil|done].
Qed.

Lemma selectRandomItems_run (count : Z) (source : list T) (w : World) :
  (0 ≤ count ≤ maxLen T)%Z → source ≠ [] →
  selectRandomItems count source w =
    (Val (picks source (Z.to_nat count) (tape w)),
     mkWorld (drop (Z.to_nat count) (tape w)) (calls w) (stdout w)).
Proof.
  intros Hc Hsrc. unfold selectRandomItems, make.
  rewrite decide_False by lia. rewrite run_bind, run_ret.
  rewrite selectLoop_run by (rewrite ?length_replicate; done || lia).
  rewrite drop_ge by (rewrite length_replicate; lia).
  by rewrite app_nil_r.
Qed.

(** A count that [make] refuses: nothing is drawn. *)
Lemma selectRandomItems_refused (count : Z) (source : list T) (w : World) :
  (count < 0 ∨ maxLen T < count)%Z →
  selectRandomItems count source w = (Panic MakesliceLen, w).
Proof.
  intros Hc. unfold selectRandomItems, make. by rewrite decide_True.
Qed.

Lemma length_picks (source : list T) (todo : nat) (tape : list nat) :
  length (picks source todo tape) = todo.
Proof. revert tape. induction todo; intros; simpl; auto. Qed.

Lemma picks_from_source (source : list T) (todo : nat) (tape : list nat) (x : T) :
  source ≠ [] → x ∈ picks source todo tape → x ∈ source.
Proof.
  intros Hsrc. revert tape. induction todo as [|todo IH]; intros tape; simpl.
  - by intros ?%elem_of_nil.
  - intros [->|Hx]%elem_of_cons; [|by eapply IH].
    apply list_elem_of_lookup_total_2, Nat.mod_upper_bound. by destruct source.
Qed.

Lemma picks_nil_tape (source : list T) (todo : nat) :
  picks source todo [] = replicate todo (source !!! 0).
Proof.
  induction todo as [|todo IH]; simpl; [done|].
  rewrite IH. by rewrite Nat.Div0.mod_0_l.
Qed.

(** Every sequence of positions of the source is drawn by the tape that
    lists it. *)
Lemma picks_of_positions (source : list T) (positions : list nat) :
  Forall (λ p, p < length source) positions →
  picks source (length positions) positions = (λ p, source !!! p) <$> positions.
Proof.
  induction 1 as [|p positions Hp _ IH]; simpl; [done|].
  by rewrite IH, Nat.mod_small.
Qed.

End select.

(** C6, amended. For a count [N >= 0] and a non-empty source of size [M]:
    when [N] is not above the longest slice the runtime allocates,
    [selectRandomItems] returns, whatever the random numbers are, exactly
    [N] items, each an element of the source, and touches neither the
    service nor the output; the draws are with replacement: when [N > M]
    some random numbers give a result with a repeated item, and more
    generally every sequence of [N] positions of the source is the result
    of some random numbers. When [N] is above that length, [make] panics
    and nothing is returned or drawn. *)
Theorem selectRandomItems_spec {T} `{Inhabited T, Allocation T}
    (count : Z) (source : list T) (w : World) :
  (0 ≤ count)%Z → source ≠ [] →
  ((count ≤ maxLen T)%Z →
   (∃ out w', selectRandomItems count source w = (Val out, w') ∧
      Z.of_nat (length out) = count ∧ (∀ x, x ∈ out → x ∈ source) ∧
      calls w' = calls w ∧ stdout w' = stdout w) ∧
   ((Z.of_nat (length source) < count)%Z →
      ∃ tape out w',
        selectRandomItems count source (mkWorld tape (calls w) (stdout w)) = (Val out, w') ∧
        ¬ NoDup out) ∧
   (∀ positions : list nat,
      Z.of_nat (length positions) = count →
      Forall (λ p, p < length source) positions →
      ∃ w', selectRandomItems count source (mkWorld positions (calls w) (stdout w)) =
              (Val ((λ p, source !!! p) <$> positions), w'))) ∧
  ((maxLen T < count)%Z →
   selectRandomItems count source w = (Panic MakesliceLen, w)).
Proof.
  intros Hc Hsrc. split; [|intros Hlimit; apply selectRandomItems_refused; by right].
  intros Hlimit. split; [|split].
  - eexists _, _. split; [by apply selectRandomItems_run|].
    rewrite length_picks. cbn [calls stdout].
    repeat split; [lia|]. intros x. by apply picks_from_source.
  - intros HM. exists [], (replicate (Z.to_nat count) (source !!! 0)). eexists.
    rewrite selectRandomItems_run by done. cbn [tape]. rewrite picks_nil_tape.
    split; [done|].
    assert (Hn : ∃ n, Z.to_nat count = S (S n)).
    { destruct source; [done|]. simpl in HM. exists (Z.to_nat count - 2). lia. }
    destruct Hn as [n ->]. simpl. intros [Hnotin _]%NoDup_cons.
    apply Hnotin. by left.
  - intros positions Hlen Hpos. eexists.
    rewrite selectRandomItems_run by done. cbn [tape].
    replace (Z.to_nat count) with (length positions) by lia.
    by rewrite picks_of_positions.
Qed.

(** ** [FilterArtists] *)

Lemma foldl_append_if {A} (keep : A → bool) (l acc : list A) :
  foldl (λ filtered x, if keep x then filtered ++ [x] else filtered) acc l =
  acc ++ filter (λ x, keep x) l.
Proof.
  revert acc. induction l as [|x l IH]; intros acc; simpl.
  - by rewrite app_nil_r.
  - rewrite IH. destruct (keep x) eqn:Hx.
    + rewrite filter_cons_True by by rewrite Hx. by rewrite <- app_assoc.
    + rewrite filter_cons_False by (rewrite Hx; simpl; tauto). done.
Qed.

Section filter.
Variable ToLower : string → string.

(** The set built by [whitelist[strings.ToLower(name)] = true]. *)
Lemma lowered_lookup (names : list string) (m : gmap string bool) (k : string) :
  default false (foldl (λ m name, <[ToLower name := true]> m) m names !! k) =
  bool_decide (Exists (λ name, ToLower name = k) names) || default false (m !! k).
Proof.
  revert m. induction names as [|name names IH]; intros m; simpl.
  - done.
  - rewrite IH. destruct (decide (ToLower name = k)) as [Heq|Hne].
    + rewrite Heq, lookup_insert_eq. simpl. rewrite orb_true_r.
      symmetry. rewrite bool_decide_eq_true_2; [done|]. by left.
    + rewrite lookup_insert_ne by done.
      f_equal. apply bool_decide_ext. rewrite Exists_cons.
      split; [by right|by intros [?|?]].
Qed.

Lemma filterByWhitelist_filter (b : Builder) (artists : list ArtistID) :
  filterByWhitelist ToLower b artists =
  filter (matches ToLower (Whitelist (Filters (config b)))) artists.
Proof.
  unfold filterByWhitelist. rewrite foldl_append_if. simpl.
  apply list_filter_iff. intros a. rewrite lowered_lookup, lookup_empty. simpl.
  rewrite orb_false_r. by rewrite Is_true_true, bool_decide_eq_true.
Qed.

Lemma filterByBlacklist_filter (b : Builder) (artists : list ArtistID) :
  filterByBlacklist ToLower b artists =
  filter (λ a, ¬ matches ToLower (Blacklist (Filters (config b))) a) artists.
Proof.
  unfold filterByBlacklist. rewrite foldl_append_if. simpl.
  apply list_filter_iff. intros a. rewrite lowered_lookup, lookup_empty. simpl.
  rewrite orb_false_r. rewrite Is_true_true, negb_true_iff, bool_decide_eq_false. done.
Qed.

(** C1. With a non-empty whitelist, [FilterArtists] returns exactly the
    input artists whose identifier matches a whitelist entry without
    regard to case, in input order, whatever the blacklist is; else with
    a non-empty blacklist, exactly the input artists that match no
    blacklist entry, in input order; with both lists empty, the input. *)
Theorem FilterArtists_spec (b : Builder) (artists : list ArtistID) :
  let whitelist := Whitelist (Filters (config b)) in
  let blacklist := Blacklist (Filters (config b)) in
  (whitelist ≠ [] →
     FilterArtists ToLower b artists = filter (matches ToLower whitelist) artists) ∧
  (whitelist = [] → blacklist ≠ [] →
     FilterArtists ToLower b artists =
     filter (λ a, ¬ matches ToLower blacklist a) artists) ∧
  (whitelist = [] → blacklist = [] → FilterArtists ToLower b artists = artists).
Proof.
  intros whitelist blacklist. unfold FilterArtists.
  fold whitelist blacklist. repeat split.
  - intros Hw. rewrite decide_True by (destruct whitelist; [done|simpl; lia]).
    apply filterByWhitelist_filter.
  - intros -> Hb. rewrite decide_False by (simpl; lia).
    rewrite decide_True by (destruct blacklist; [done|simpl; lia]).
    apply filterByBlacklist_filter.
  - intros -> ->. by rewrite !decide_False by (simpl; lia).
Qed.

End filter.

(** ** The client: [CreateOrUpdatePlaylist] *)

Lemma foldl_append_decide {A} (P : A → Prop) `{∀ x, Decision (P x)} (l acc : list A) :
  foldl (λ kept x, if decide (P x) then kept ++ [x] else kept) acc l =
  acc ++ filter P l.
Proof.
  revert acc. induction l as [|x l IH]; intros acc; simpl.
  - by rewrite app_nil_r.
  - rewrite IH. destruct (decide (P x)).
    + rewrite filter_cons_True by done. by rewrite <- app_assoc.
    + by rewrite filter_cons_False by done.
Qed.

Lemma batchCount_lt (trackIDs : list string) (k : nat) :
  k < batchCount trackIDs ↔ batchSize * k < length trackIDs.
Proof.
  unfold batchCount, batchSize.
  pose proof (Nat.div_mod_eq (length trackIDs + (20 - 1)) 20).
  pose proof (Nat.mod_upper_bound (length trackIDs + (20 - 1)) 20). lia.
Qed.

(** The slice of a round of the batch loop is the batch of that round. *)
Lemma slice_batch (trackIDs : list string) (k : nat) :
  batchSize * k < length trackIDs →
  slice trackIDs (batchSize * k)
        (if decide (length trackIDs < batchSize * k + batchSize)
         then length trackIDs else batchSize * k + batchSize) =
  batch trackIDs k.
Proof.
  intros Hk. unfold slice, batch. case_decide.
  - rewrite !take_ge; [done|rewrite length_drop; lia..].
  - f_equal. lia.
Qed.

Section upsert.
Variable c : Client.

Lemma FindAllPlaylistsByName_run (name : string) (w : World) :
  FindAllPlaylistsByName c name w =
    (Val (match userPlaylists c (calls w) with
          | Body _ => (filter (λ p, GetTitle p = name) (listed c (calls w)), None)
          | Failed e => ([], Some (wrap "failed to get user playlists" e))
          end),
     mkWorld (tape w) (calls w ++ [CallGetUserPlaylists]) (stdout w)).
Proof.
  unfold FindAllPlaylistsByName, GetUserPlaylists, request, listed.
  rewrite !run_bind. destruct (userPlaylists c (calls w)); simpl; [|done].
  unfold mret, M_ret. by rewrite foldl_append_decide.
Qed.

(** The deletion loop sends the deletions in order and stops at the
    first that fails. *)
Lemma deleteExisting_run (existing : list Playlist) (w : World) :
  ∃ (sent : nat) (err : option error),
    deleteExisting c existing w =
      (Val err,
       mkWorld (tape w)
               (calls w ++ (CallDeletePlaylist ∘ Playlist_ID <$> take sent existing))
               (stdout w)) ∧
    (err = None → sent = length existing) ∧
    ((∀ h id, deletePlaylist c h id = None) → err = None).
Proof.
  revert w. induction existing as [|p existing IH]; intros w.
  - exists 0, None. simpl. rewrite app_nil_r. by destruct w.
  - cbn [deleteExisting]. unfold DeletePlaylist, request. rewrite run_bind.
    destruct (deletePlaylist c (calls w) (Playlist_ID p)) as [e|] eqn:He.
    + exists 1, (Some (wrap ("failed to delete playlist " +:+ Playlist_ID p) e)).
      split; [done|]. split; [done|]. intros Hok. by rewrite Hok in He.
    + destruct (IH (mkWorld (tape w) (calls w ++ [CallDeletePlaylist (Playlist_ID p)])
                            (stdout w))) as (sent & err & -> & Hall & Hok).
      exists (S sent), err. cbn [tape calls stdout]. split.
      * simpl. by rewrite <- app_assoc.
      * split; [|done]. intros ->%Hall. done.
Qed.

(** The batch loop, entered at batch [k], sends the batches in order and
    stops at the first that fails. *)
Lemma addBatches_run (p : Playlist) (trackIDs : list string) (fuel : nat) :
  ∀ (k : nat) (w : World),
    batchCount trackIDs ≤ k + fuel →
    ∃ (sent : nat) (err : option error) (out : list string),
      addBatches c fuel (Some p) trackIDs (batchSize * k) w =
        (Val err,
         mkWorld (tape w)
                 (calls w ++ (CallSetPlaylistTracks (GetID p) ∘ batch trackIDs <$> seq k sent))
                 (stdout w ++ out)) ∧
      sent ≤ batchCount trackIDs - k ∧
      (err = None → sent = batchCount trackIDs - k) ∧
      ((∀ h id l, setPlaylistTracks c h id l = None) → err = None).
Proof.
  induction fuel as [|fuel IH]; intros k w Hfuel.
  - exists 0, None, []. simpl. rewrite !app_nil_r.
    repeat split; [by destruct w|lia..].
  - cbn [addBatches]. case_decide as Hk.
    + rewrite (slice_batch _ _ Hk). simpl deref. rewrite run_bind, run_ret.
      unfold SetPlaylistTracks, request. rewrite run_bind.
      apply batchCount_lt in Hk.
      destruct (setPlaylistTracks c (calls w) (GetID p) (batch trackIDs k)) as [e|] eqn:He.
      * exists 1, (Some (wrap "failed to add tracks to playlist" e)), [].
        simpl. rewrite app_nil_r. repeat split; [lia|done|].
        intros Hok. by rewrite Hok in He.
      * unfold Printf at 1. rewrite run_bind.
        replace (batchSize * k + batchSize) with (batchSize * S k) by lia.
        edestruct (IH (S k)) as (sent & err & out & -> & Hsent & Hall & Hok); [lia|].
        exists (S sent), err. eexists. cbn [tape calls stdout]. split.
        -- simpl. rewrite <- !app_assoc. simpl. reflexivity.
        -- repeat split; [lia| |done]. intros ->%Hall. lia.
    + rewrite <- batchCount_lt in Hk. exists 0, None, []. simpl. rewrite !app_nil_r.
      repeat split; [by destruct w|lia..].
Qed.

(** The calls of [CreateOrUpdatePlaylist]: a prefix of [upsert_calls],
    all of it when no error is returned. *)
Lemma CreateOrUpdatePlaylist_run (name description : string)
    (trackIDs : list string) (w : World) :
  let existing := filter (λ p, GetTitle p = name) (listed c (calls w)) in
  ∃ (r : option Playlist * option error) (log : list Call) (out : list string)
    (id : string),
    CreateOrUpdatePlaylist c name description trackIDs w =
      (Val r, mkWorld (tape w) (calls w ++ log) (stdout w ++ out)) ∧
    log `prefix_of` upsert_calls existing name description id trackIDs ∧
    (r.2 = None →
       ∃ p, r.1 = Some p ∧ GetID p = id ∧
            log = upsert_calls existing name description id trackIDs) ∧
    (upsert_succeeds c → r.2 = None).
Proof.
  intros existing. unfold CreateOrUpdatePlaylist.
  rewrite run_bind, FindAllPlaylistsByName_run. fold existing.
  destruct (userPlaylists c (calls w)) as [data|e] eqn:Hlist.
  2:{ rewrite run_ret. eexists (_, Some _), _, [], "".
      rewrite (app_nil_r (stdout w)). split; [reflexivity|].
      split; [by apply prefix_cons, prefix_nil|].
      split; [done|]. intros [Hok _]. destruct (Hok (calls w)). congruence. }
  rewrite run_bind.
  edestruct (deleteExisting_run existing) as (sent & err & -> & Hsent & Hdel).
  cbn [tape calls stdout]. rewrite <- app_assoc. destruct err as [e|].
  { rewrite run_ret. eexists (_, Some _), _, [], "".
    rewrite (app_nil_r (stdout w)). split; [reflexivity|]. split.
    - apply prefix_cons, prefix_app_r. rewrite fmap_take. apply prefix_take.
    - split; [done|]. intros (_ & Hok & _). by specialize (Hdel Hok). }
  rewrite (Hsent eq_refl), firstn_all. clear Hsent Hdel.
  unfold Printf at 1. rewrite run_bind. cbn [tape calls stdout].
  unfold CreatePlaylist, request. rewrite !run_bind. cbn [tape calls stdout].
  rewrite <- app_assoc.
  match goal with |- context [createPlaylist c ?h _ _] =>
    destruct (createPlaylist c h name description) as [item|e] eqn:Hcreate end.
  2:{ rewrite !run_ret. eexists (_, Some _), _, _, "". split; [reflexivity|]. split.
      - simpl. apply prefix_cons, prefix_app, prefix_cons, prefix_nil.
      - split; [done|]. intros (_ & _ & Hok & _).
        match type of Hcreate with createPlaylist c ?h _ _ = _ =>
          destruct (Hok h name description) end. congruence. }
  rewrite !run_ret.
  edestruct (addBatches_run (playlist_of_item item) trackIDs (length trackIDs) 0)
    as (sentB & err & out & Hrun & HsentB & Hall & Hok).
  { unfold batchCount, batchSize.
    pose proof (Nat.div_mod_eq (length trackIDs + (20 - 1)) 20).
    pose proof (Nat.mod_upper_bound (length trackIDs + (20 - 1)) 20). lia. }
  rewrite Nat.mul_0_r in Hrun. rewrite run_bind, Hrun. cbn [tape calls stdout].
  rewrite <- !app_assoc.
  exists (if err is Some e then (None, Some e) else (Some (playlist_of_item item), None)).
  eexists _, _, (GetID (playlist_of_item item)).
  split; [destruct err; reflexivity|].
  rewrite (list_fmap_compose (batch trackIDs)). split; [|split].
  - simpl. apply prefix_cons, prefix_app, prefix_cons. unfold batches.
    replace (seq 0 sentB) with (take sentB (seq 0 (batchCount trackIDs)))
      by (rewrite take_seq; f_equal; lia).
    rewrite !fmap_take. apply prefix_take.
  - destruct err; [done|]. intros _. eexists. split; [done|]. split; [done|].
    rewrite (Hall eq_refl), Nat.sub_0_r. done.
  - intros (_ & _ & _ & Hset). rewrite (Hok Hset). done.
Qed.

End upsert.

(** ** The batches *)

Lemma join_batch_seq (trackIDs : list string) (n k : nat) :
  mjoin (batch trackIDs <$> seq k n) =
  take (batchSize * n) (drop (batchSize * k) trackIDs).
Proof.
  revert k. induction n as [|n IH]; intros k.
  - by rewrite Nat.mul_0_r.
  - cbn [seq fmap list_fmap mjoin list_join]. rewrite IH. unfold batch.
    replace (batchSize * S k) with (batchSize * k + batchSize) by lia.
    rewrite <- drop_drop, take_take_drop. f_equal. lia.
Qed.

Lemma join_batches (trackIDs : list string) : mjoin (batches trackIDs) = trackIDs.
Proof.
  unfold batches. rewrite join_batch_seq, Nat.mul_0_r. simpl drop.
  apply take_ge. unfold batchCount, batchSize.
  pose proof (Nat.div_mod_eq (length trackIDs + (20 - 1)) 20).
  pose proof (Nat.mod_upper_bound (length trackIDs + (20 - 1)) 20). lia.
Qed.

Lemma length_batch (trackIDs : list string) (k : nat) :
  length (batch trackIDs k) = min batchSize (length trackIDs - batchSize * k).
Proof. unfold batch. by rewrite length_take, length_drop. Qed.

Lemma batches_bounds (trackIDs : list string) :
  Forall (λ ids, 0 < length ids ≤ batchSize) (batches trackIDs).
Proof.
  unfold batches. apply Forall_fmap, Forall_forall. intros k Hk%elem_of_seq.
  simpl. rewrite length_batch.
  assert (batchSize * k < length trackIDs) by (apply batchCount_lt; lia).
  unfold batchSize in *. lia.
Qed.

Lemma written_app (l1 l2 : list Call) : written (l1 ++ l2) = written l1 ++ written l2.
Proof. apply omap_app. Qed.

Lemma written_deletes (ids : list Playlist) :
  written (CallDeletePlaylist ∘ Playlist_ID <$> ids) = [].
Proof. by induction ids. Qed.

Lemma written_sets (id : string) (bs : list (list string)) :
  written (CallSetPlaylistTracks id <$> bs) = bs.
Proof. induction bs as [|x bs IH]; [done|]. unfold written in *. simpl. by f_equal. Qed.

Lemma written_upsert_calls existing name description id trackIDs :
  written (upsert_calls existing name description id trackIDs) = batches trackIDs.
Proof.
  unfold upsert_calls. change (CallGetUserPlaylists :: ?l) with ([CallGetUserPlaylists] ++ l).
  rewrite !written_app, written_deletes, written_sets. done.
Qed.

Lemma written_prefix (l1 l2 : list Call) :
  l1 `prefix_of` l2 → written l1 `prefix_of` written l2.
Proof. intros [k ->]. rewrite written_app. by eexists. Qed.

Lemma join_prefix {A} (l1 l2 : list (list A)) :
  l1 `prefix_of` l2 → mjoin l1 `prefix_of` mjoin l2.
Proof. intros [k ->]. rewrite join_app. by eexists. Qed.

(** C7. [CreateOrUpdatePlaylist] of the name [X] sends, after the listing
    of the user's playlists, the deletion of exactly the listed playlists
    whose reconciled title is [X], then one creation of a playlist titled
    [X], then the track writes, all to the created playlist. Whatever
    fails, the calls sent are a beginning of that sequence, so that no
    track is written before every deletion and the creation are done; when
    no error is returned the sequence is complete, and no error is
    returned when no request fails. *)
Theorem CreateOrUpdatePlaylist_upsert (c : Client) (name description : string)
    (trackIDs : list string) (w : World) :
  let existing := filter (λ p, GetTitle p = name) (listed c (calls w)) in
  ∃ (r : option Playlist * option error) (w' : World) (log : list Call)
    (id : string) (writes : list Call),
    CreateOrUpdatePlaylist c name description trackIDs w = (Val r, w') ∧
    calls w' = calls w ++ log ∧
    Forall (λ call, ∃ ids, call = CallSetPlaylistTracks id ids) writes ∧
    log `prefix_of`
      CallGetUserPlaylists :: (CallDeletePlaylist ∘ Playlist_ID <$> existing) ++
      [CallCreatePlaylist name description] ++ writes ∧
    (r.2 = None →
       ∃ p, r.1 = Some p ∧ GetID p = id ∧
         log = CallGetUserPlaylists :: (CallDeletePlaylist ∘ Playlist_ID <$> existing) ++
               [CallCreatePlaylist name description] ++ writes) ∧
    (upsert_succeeds c → r.2 = None).
Proof.
  intros existing.
  destruct (CreateOrUpdatePlaylist_run c name description trackIDs w)
    as (r & log & out & id & Hrun & Hpre & Hall & Hok).
  exists r. eexists. exists log, id, (CallSetPlaylistTracks id <$> batches trackIDs).
  split; [exact Hrun|]. split; [done|]. split; [|done].
  apply Forall_fmap, Forall_forall. intros ids _. by exists ids.
Qed.

(** C8. The track writes of [CreateOrUpdatePlaylist] are consecutive
    batches of the input in its order, each of at least one and at most 20
    identifiers: whatever fails, the batches written, put end to end, are
    a beginning of the input; when no error is returned they are the whole
    input, and for an input of 45 identifiers they are three writes of 20,
    20 and 5 identifiers. No error is returned when no request fails. *)
Theorem CreateOrUpdatePlaylist_batches (c : Client) (name description : string)
    (trackIDs : list string) (w : World) :
  ∃ (r : option Playlist * option error) (w' : World) (log : list Call),
    CreateOrUpdatePlaylist c name description trackIDs w = (Val r, w') ∧
    calls w' = calls w ++ log ∧
    Forall (λ ids, 0 < length ids ≤ 20) (written log) ∧
    mjoin (written log) `prefix_of` trackIDs ∧
    (r.2 = None → mjoin (written log) = trackIDs) ∧
    (r.2 = None → length trackIDs = 45 → length <$> written log = [20; 20; 5]) ∧
    (upsert_succeeds c → r.2 = None).
Proof.
  destruct (CreateOrUpdatePlaylist_run c name description trackIDs w)
    as (r & log & out & id & Hrun & Hpre & Hall & Hok).
  exists r. eexists. exists log. split; [exact Hrun|]. split; [done|].
  apply written_prefix in Hpre. rewrite written_upsert_calls in Hpre.
  split; [|split; [|split; [|split]]]; [| | | |done].
  - destruct Hpre as [k Hk]. pose proof (batches_bounds trackIDs) as Hb.
    rewrite Hk in Hb. by apply Forall_app in Hb as [Hb _].
  - apply join_prefix in Hpre. by rewrite join_batches in Hpre.
  - intros (p & _ & _ & ->)%Hall. by rewrite written_upsert_calls, join_batches.
  - intros (p & _ & _ & ->)%Hall Hlen. rewrite written_upsert_calls.
    unfold batches, batchCount. rewrite Hlen. cbn [batchSize Nat.div seq fmap list_fmap].
    simpl. rewrite !length_batch, Hlen. done.
Qed.

(** ** The order of the artists *)

Lemma ascii_compare_lt_trans (a b c : Ascii.ascii) :
  Ascii.compare a b = Lt → Ascii.compare b c = Lt → Ascii.compare a c = Lt.
Proof. unfold Ascii.compare. rewrite !N.compare_lt_iff. lia. Qed.

Lemma string_compare_lt_trans (x : string) :
  ∀ y z, String.compare x y = Lt → String.compare y z = Lt → String.compare x z = Lt.
Proof.
  induction x as [|a x IH]; intros [|b y] [|c z]; simpl; try done.
  destruct (Ascii.compare a b) eqn:Hab; [|clear IH|done].
  - apply Ascii.compare_eq_iff in Hab as ->.
    destruct (Ascii.compare b c); [apply IH|done..].
  - intros _. destruct (Ascii.compare b c) eqn:Hbc; [|intros _|done].
    + apply Ascii.compare_eq_iff in Hbc as <-. by rewrite Hab.
    + by rewrite (ascii_compare_lt_trans _ _ _ Hab Hbc).
Qed.

Global Instance artist_le_total : Total artist_le.
Proof.
  intros a a'. unfold artist_le, artistCmp, strings_Compare.
  rewrite (String.compare_antisym (ArtistID_ID a')).
  destruct (String.compare (ArtistID_ID a) (ArtistID_ID a')); simpl;
    (by left) || by right.
Qed.

Global Instance artist_le_trans : Transitive artist_le.
Proof.
  intros a1 a2 a3. unfold artist_le, artistCmp, strings_Compare. intros H12 H23.
  destruct (String.compare (ArtistID_ID a1) (ArtistID_ID a2)) eqn:E12; [| |done].
  { apply String.compare_eq_iff in E12. by rewrite E12. }
  destruct (String.compare (ArtistID_ID a2) (ArtistID_ID a3)) eqn:E23; [| |done].
  { apply String.compare_eq_iff in E23. by rewrite <- E23, E12. }
  by rewrite (string_compare_lt_trans _ _ _ E12 E23).
Qed.

Global Instance artist_le_antisym : AntiSymm (=) artist_le.
Proof.
  intros [x] [y]. unfold artist_le, artistCmp, strings_Compare. simpl.
  rewrite (String.compare_antisym y x).
  destruct (String.compare x y) eqn:E; simpl; try done.
  apply String.compare_eq_iff in E. by subst.
Qed.

Lemma sortArtists_sorted (artists : list ArtistID) : Sorted artist_le (sortArtists artists).
Proof. apply Sorted_merge_sort, _. Qed.

Lemma sortArtists_perm (artists : list ArtistID) : sortArtists artists ≡ₚ artists.
Proof. apply merge_sort_Permutation. Qed.

(** Whatever algorithm [slices.SortFunc] runs, this is the slice it leaves:
    the only ascending arrangement of the artists. *)
Lemma sortArtists_unique (artists sorted : list ArtistID) :
  Sorted artist_le sorted → sorted ≡ₚ artists → sorted = sortArtists artists.
Proof.
  intros Hsorted Hperm. apply (Sorted_unique artist_le); [done|apply sortArtists_sorted|].
  by rewrite Hperm, sortArtists_perm.
Qed.

(** ** [CollectTracks] *)

Lemma reads_nil : reads [].
Proof. constructor. Qed.

Lemma reads_app (l1 l2 : list Call) : reads l1 → reads l2 → reads (l1 ++ l2).
Proof. unfold reads. rewrite Forall_app. done. Qed.

Section collect.
Variable b : Builder.
Context `{!Allocation ArtistID, !Allocation (option Track)}.

(** A failed fetch of the artist detail leaves [nil] in [artist], and the
    warning reads [artist.ID]. *)
Lemma artistDetail_run (a : ArtistID) (w : World) :
  artistDetail b a w =
    (match artist (client b) (calls w) (ArtistID_ID a) with
     | Body described => Val (Some described)
     | Failed _ => Panic NilDereference
     end,
     mkWorld (tape w) (calls w ++ [CallGetArtist (ArtistID_ID a)]) (stdout w)).
Proof.
  unfold artistDetail, GetArtist, request. rewrite !run_bind.
  by destruct (artist (client b) (calls w) (ArtistID_ID a)).
Qed.

Lemma artistAlbumsCached_spec (described : Artist) (st : collectState) (w : World) :
  cached (client b) st →
  ∃ (fetched : option collectState) (w' : World) (log : list Call),
    artistAlbumsCached b (Some described) st w = (Val fetched, w') ∧
    calls w' = calls w ++ log ∧ reads log ∧
    ∀ st', fetched = Some st' →
      slots st' = slots st ∧ cached (client b) st' ∧
      albums_of (client b) (Artist_ID described) (lastAlbums st').
Proof.
  intros Hcached. unfold artistAlbumsCached. simpl deref.
  rewrite run_bind, run_ret. case_decide as Hsame.
  2:{ exists (Some st), w, []. rewrite app_nil_r.
      split; [done|]. split; [done|]. split; [apply reads_nil|].
      intros st' [= <-]. split; [done|]. split; [done|].
      destruct (decide (lastArtist st = "")) as [|Hne]; [tauto|].
      destruct (decide (lastArtist st = Artist_ID described)) as [<-|]; [|tauto].
      by apply Hcached. }
  clear Hsame. do 2 mstep. unfold GetArtistAlbums. rewrite run_bind. mstep.
  destruct (artistAlbums (client b) (calls w) (Artist_ID described))
    as [albums|e] eqn:Halbums.
  2:{ rewrite run_ret. cbv beta iota. rewrite decide_True by (left; done).
      mstep. rewrite run_ret.
      eexists None, _, [_]. split; [reflexivity|]. cbn [calls].
      split; [done|]. split; [by repeat constructor|]. done. }
  rewrite run_ret. cbv beta iota.
  set (kept := if decide (100 < length albums) then take 100 albums else albums).
  case_decide as Hempty.
  { mstep. rewrite run_ret.
    eexists None, _, [_]. split; [reflexivity|]. cbn [calls].
    split; [done|]. split; [by repeat constructor|]. done. }
  rewrite run_ret.
  eexists (Some _), _, [_]. split; [reflexivity|]. cbn [calls].
  split; [done|]. split; [by repeat constructor|].
  intros st' [= <-]. cbn [slots lastArtist lastAlbums].
  assert (Hof : albums_of (client b) (Artist_ID described) kept).
  { split; [destruct kept; [simpl in Hempty; tauto|done]|].
    exists (calls w), albums. split; [done|]. unfold kept. case_decide; [|done].
    apply subseteq_take. }
  split; [done|]. split; [|done]. by intros _.
Qed.

Lemma randomTrackInto_spec (i : nat) (st : collectState) (w : World) :
  lastAlbums st ≠ [] → i < length (slots st) →
  ∃ (st' : collectState) (w' : World) (log : list Call),
    randomTrackInto b i st w = (Val st', w') ∧
    calls w' = calls w ++ log ∧ reads log ∧
    lastArtist st' = lastArtist st ∧ lastAlbums st' = lastAlbums st ∧
    (slots st' = slots st ∨
     ∃ t album h tracks,
       album ∈ lastAlbums st ∧
       albumTracks (client b) h (Album_ID album) = Body tracks ∧ t ∈ tracks ∧
       slots st' = <[i := Some t]> (slots st)).
Proof.
  intros Halbums Hi. unfold randomTrackInto.
  assert (Hn : length (lastAlbums st) ≠ 0) by by destruct (lastAlbums st).
  rewrite run_bind, (run_Intn _ _ Hn). cbv beta iota. cbn [tape calls stdout].
  set (r := hd 0 (tape w) `mod` length (lastAlbums st)).
  assert (Hr : r < length (lastAlbums st)) by by apply Nat.mod_upper_bound.
  destruct (lookup_lt_is_Some_2 _ _ Hr) as [album Halbum].
  rewrite run_bind, (run_index _ _ _ _ Halbum). cbv beta iota.
  mstep. unfold GetAlbumTracks. rewrite run_bind. mstep.
  destruct (albumTracks (client b) (calls w) (Album_ID album)) as [tracks|e] eqn:Htracks.
  2:{ rewrite run_ret. cbv beta iota. rewrite decide_False by (intros [[=] _]).
      rewrite run_ret. eexists st, _, [_]. split; [reflexivity|]. cbn [calls].
      split; [done|]. split; [by repeat constructor|].
      split; [done|]. split; [done|]. by left. }
  rewrite run_ret. cbv beta iota. case_decide as Hsome.
  2:{ rewrite run_ret. eexists st, _, [_]. split; [reflexivity|]. cbn [calls].
      split; [done|]. split; [by repeat constructor|].
      split; [done|]. split; [done|]. by left. }
  destruct Hsome as [_ Hsome].
  assert (Hm : length tracks ≠ 0) by lia.
  rewrite run_bind, (run_Intn _ _ Hm). cbv beta iota. cbn [tape calls stdout].
  set (r' := hd 0 (tail (tape w)) `mod` length tracks).
  assert (Hr' : r' < length tracks) by by apply Nat.mod_upper_bound.
  destruct (lookup_lt_is_Some_2 _ _ Hr') as [t Ht].
  rewrite run_bind, (run_index _ _ _ _ Ht). cbv beta iota.
  rewrite run_bind, run_store by done. cbv beta iota.
  mstep. rewrite run_ret.
  eexists _, _, [_]. split; [reflexivity|]. cbn [calls lastArtist lastAlbums slots].
  split; [done|]. split; [by repeat constructor|]. split; [done|]. split; [done|].
  right. exists t, album, (calls w), tracks.
  split; [by eapply list_elem_of_lookup_2|]. split; [done|].
  split; [by eapply list_elem_of_lookup_2|done].
Qed.

Lemma collectStep_spec (i : nat) (a : ArtistID) (st : collectState) (w : World) :
  cached (client b) st → i < length (slots st) →
  ∃ (out : outcome collectState) (w' : World) (log : list Call),
    collectStep b i a st w = (out, w') ∧ calls w' = calls w ++ log ∧ reads log ∧
    match artist (client b) (calls w) (ArtistID_ID a) with
    | Failed _ => out = Panic NilDereference
    | Body _ =>
        ∃ st', out = Val st' ∧ cached (client b) st' ∧
          (slots st' = slots st ∨
           ∃ t, slots st' = <[i := Some t]> (slots st) ∧ track_of (client b) a t)
    end.
Proof.
  intros Hcached Hi. unfold collectStep. rewrite run_bind, artistDetail_run.
  destruct (artist (client b) (calls w) (ArtistID_ID a)) as [described|e] eqn:Hartist.
  2:{ eexists _, _, [_]. split; [reflexivity|]. cbn [calls].
      split; [done|]. split; [by repeat constructor|done]. }
  rewrite run_bind.
  edestruct (artistAlbumsCached_spec described st) as (fetched & w1 & log1 & -> & Hw1 & Hlog1 & Hfetched);
    [done|].
  destruct fetched as [st1|].
  2:{ rewrite run_ret. eexists _, _, (_ :: log1). split; [reflexivity|].
      rewrite Hw1. cbn [calls]. rewrite <- app_assoc.
      split; [done|]. split; [by constructor|]. exists st.
      split; [done|]. split; [done|]. by left. }
  destruct (Hfetched st1 eq_refl) as (Hslots & Hcached1 & Hof).
  edestruct (randomTrackInto_spec i st1 w1)
    as (st2 & w2 & log2 & -> & Hw2 & Hlog2 & HlastArtist & HlastAlbums & Hslot);
    [by destruct Hof|by rewrite Hslots|].
  eexists _, _, (_ :: log1 ++ log2). split; [reflexivity|].
  rewrite Hw2, Hw1. cbn [calls]. rewrite <- !app_assoc.
  split; [done|]. split; [constructor; [done|by apply reads_app]|].
  exists st2. split; [done|]. split.
  { unfold cached. by rewrite HlastArtist, HlastAlbums. }
  rewrite <- Hslots. destruct Hslot as [->|(t & album & h & tracks & Halbum & Htracks & Ht & ->)];
    [by left|right].
  exists t. split; [done|].
  destruct Hof as (_ & h2 & listed & Hlisted & Hsub).
  exists (calls w), described, h2, listed, album, h, tracks.
  repeat split; try done. by apply Hsub.
Qed.

Lemma collectLoop_spec (artists : list ArtistID) :
  ∀ (i : nat) (st : collectState) (w : World),
    cached (client b) st → i + length artists ≤ length (slots st) →
    ∃ (out : outcome collectState) (w' : World) (log : list Call),
      collectLoop b i artists st w = (out, w') ∧
      calls w' = calls w ++ log ∧ reads log ∧
      match out with
      | Val st' =>
          length (slots st') = length (slots st) ∧
          ∀ j, slots st' !! j = slots st !! j ∨
               ∃ a t, i ≤ j ∧ artists !! (j - i) = Some a ∧
                      slots st' !! j = Some (Some t) ∧ track_of (client b) a t
      | Panic p => p = NilDereference
      end ∧
      ((∀ h id, ∃ described, artist (client b) h id = Body described) →
       ∃ st', out = Val st').
Proof.
  induction artists as [|a artists IH]; intros i st w Hcached Hlen.
  - exists (Val st), w, []. rewrite app_nil_r. simpl.
    split; [done|]. split; [done|]. split; [apply reads_nil|].
    split; [|by eexists]. split; [done|]. by left.
  - cbn [collectLoop]. rewrite run_bind. simpl in Hlen.
    edestruct (collectStep_spec i a st w) as (out1 & w1 & log1 & -> & Hw1 & Hlog1 & Hstep);
      [done|lia|].
    destruct (artist (client b) (calls w) (ArtistID_ID a)) as [described|e] eqn:Hartist.
    2:{ subst out1. exists (Panic NilDereference), w1, log1.
        split; [done|]. split; [done|]. split; [done|]. split; [done|].
        intros Hok. destruct (Hok (calls w) (ArtistID_ID a)). congruence. }
    destruct Hstep as (st1 & -> & Hcached1 & Hslot).
    assert (Hlen1 : length (slots st1) = length (slots st)).
    { destruct Hslot as [->|(t & -> & _)]; [done|by rewrite length_insert]. }
    edestruct (IH (S i) st1 w1) as (out & w2 & log2 & -> & Hw2 & Hlog2 & Hout & Hok);
      [done|lia|].
    exists out, w2, (log1 ++ log2). split; [done|].
    rewrite Hw2, Hw1, <- app_assoc. split; [done|]. split; [by apply reads_app|].
    split; [|done]. destruct out as [st2|p]; [|done].
    destruct Hout as [Hlen2 Hslots2]. split; [congruence|].
    intros j. destruct (Hslots2 j) as [Hj|(a' & t & Hij & Ha' & Hj & Ht)].
    + rewrite Hj. destruct Hslot as [->|(t & -> & Ht)]; [by left|].
      destruct (decide (j = i)) as [->|Hne].
      * right. exists a, t. rewrite Nat.sub_diag, list_lookup_insert_eq by lia. done.
      * left. by rewrite list_lookup_insert_ne.
    + right. exists a', t. split; [lia|]. split; [|done].
      replace (j - i) with (S (j - S i)) by lia. done.
Qed.

Lemma CollectTracks_spec (artists : list ArtistID) (w : World) :
  ∃ (out : outcome (list ArtistID * (list (option Track) * option error)))
    (w' : World) (log : list Call),
    CollectTracks b artists w = (out, w') ∧ calls w' = calls w ++ log ∧ reads log ∧
    match out with
    | Val (sorted, (tracks, err)) =>
        sorted = sortArtists artists ∧ err = None ∧
        length tracks = length artists ∧
        ∀ j t, tracks !! j = Some (Some t) →
               ∃ a, sorted !! j = Some a ∧ track_of (client b) a t
    | Panic p =>
        p = NilDereference ∨
        p = MakesliceLen ∧ (maxLen (option Track) < Z.of_nat (length artists))%Z
    end ∧
    ((Z.of_nat (length artists) ≤ maxLen (option Track))%Z →
     (∀ h id, ∃ described, artist (client b) h id = Body described) →
     ∃ v, out = Val v).
Proof.
  unfold CollectTracks, make. case_decide as Hlimit.
  { exists (Panic MakesliceLen), w, []. rewrite app_nil_r.
    split; [done|]. split; [done|]. split; [apply reads_nil|].
    split; [right; split; [done|lia]|]. intros ?. lia. }
  rewrite run_bind, run_ret, Nat2Z.id, run_bind.
  change (@inhabitant (option Track) _) with (@None Track).
  edestruct (collectLoop_spec (sortArtists artists) 0
               (mkCollectState "" [] (replicate (length artists) None)) w)
    as (out & w' & log & -> & Hw' & Hlog & Hout & Hok).
  { by intros ?. }
  { cbn [slots]. by rewrite length_replicate, sortArtists_perm. }
  destruct out as [st|p].
  - rewrite run_ret. eexists _, _, log. split; [reflexivity|].
    split; [done|]. split; [done|]. split; [|by eexists].
    destruct Hout as [Hlen Hslots]. cbn [slots] in *.
    split; [done|]. split; [done|]. rewrite length_replicate in Hlen.
    split; [done|]. intros j t Hj.
    destruct (Hslots j) as [Hnone|(a & t' & _ & Ha & Ht' & Htrack)].
    + rewrite Hj in Hnone. symmetry in Hnone.
      by apply lookup_replicate in Hnone as [[=] _].
    + rewrite Nat.sub_0_r in Ha. exists a. split; [done|]. congruence.
  - eexists _, _, log. split; [reflexivity|]. split; [done|]. split; [done|].
    split; [by left|]. intros _ Hall. by destruct (Hok Hall).
Qed.

(** The albums are those of the round before when the artist is the same. *)
Lemma artistAlbumsCached_kept (described : Artist) (st : collectState) (w : World) :
  lastArtist st ≠ "" → lastArtist st = Artist_ID described →
  artistAlbumsCached b (Some described) st w = (Val (Some st), w).
Proof.
  intros Hne Hsame. unfold artistAlbumsCached. simpl deref.
  rewrite run_bind, run_ret. rewrite decide_False by tauto. done.
Qed.

(** Else they are asked for: one request, and the round goes on with the
    first 100 albums listed unless the request fails or lists none. *)
Lemma artistAlbumsCached_fetch (described : Artist) (st : collectState) (w : World) :
  lastArtist st = "" ∨ lastArtist st ≠ Artist_ID described →
  ∃ out : list string,
    artistAlbumsCached b (Some described) st w =
      (Val (match artistAlbums (client b) (calls w) (Artist_ID described) with
            | Body albums =>
                if decide (albums = []) then None
                else Some (mkCollectState (Artist_ID described) (take 100 albums) (slots st))
            | Failed _ => None
            end),
       mkWorld (tape w) (calls w ++ [CallGetArtistAlbums (Artist_ID described)])
               (stdout w ++ out)).
Proof.
  intros Hfetch. unfold artistAlbumsCached. simpl deref.
  rewrite run_bind, run_ret. rewrite decide_True by done.
  do 2 mstep. unfold GetArtistAlbums. rewrite run_bind. mstep.
  destruct (artistAlbums (client b) (calls w) (Artist_ID described)) as [albums|e].
  2:{ rewrite run_ret. cbv beta iota. rewrite decide_True by (left; done).
      mstep. rewrite run_ret. rewrite <- app_assoc. by eexists. }
  rewrite run_ret. cbv beta iota zeta.
  assert (Hkept : (if decide (100 < length albums) then take 100 albums else albums) =
                  take 100 albums).
  { case_decide; [done|]. rewrite take_ge; [done|lia]. }
  rewrite Hkept. destruct (decide (albums = [])) as [->|Hne].
  - rewrite decide_True by (right; done). mstep. rewrite run_ret.
    rewrite <- app_assoc. by eexists.
  - rewrite decide_False.
    + rewrite run_ret. by eexists.
    + intros [[]|Hlen]; [done|]. destruct albums; [done|]. simpl in Hlen. lia.
Qed.

(** The last part of a round sends one request, for the tracks of one of
    the albums, and fills the slot or leaves everything as it is. *)
Lemma randomTrackInto_calls (i : nat) (st : collectState) (w : World) :
  lastAlbums st ≠ [] → i < length (slots st) →
  ∃ (st' : collectState) (w' : World) (album : Album),
    randomTrackInto b i st w = (Val st', w') ∧
    calls w' = calls w ++ [CallGetAlbumTracks (Album_ID album)] ∧
    album ∈ lastAlbums st ∧
    lastArtist st' = lastArtist st ∧ lastAlbums st' = lastAlbums st ∧
    length (slots st') = length (slots st) ∧
    match albumTracks (client b) (calls w) (Album_ID album) with
    | Body (t :: tracks) =>
        ∃ t', t' ∈ t :: tracks ∧ slots st' = <[i := Some t']> (slots st)
    | _ => slots st' = slots st
    end.
Proof.
  intros Halbums Hi. unfold randomTrackInto.
  assert (Hn : length (lastAlbums st) ≠ 0) by by destruct (lastAlbums st).
  rewrite run_bind, (run_Intn _ _ Hn). cbv beta iota. cbn [tape calls stdout].
  set (r := hd 0 (tape w) `mod` length (lastAlbums st)).
  assert (Hr : r < length (lastAlbums st)) by by apply Nat.mod_upper_bound.
  destruct (lookup_lt_is_Some_2 _ _ Hr) as [album Halbum].
  rewrite run_bind, (run_index _ _ _ _ Halbum). cbv beta iota.
  mstep. unfold GetAlbumTracks. rewrite run_bind. mstep.
  assert (Hin : album ∈ lastAlbums st) by by eapply list_elem_of_lookup_2.
  destruct (albumTracks (client b) (calls w) (Album_ID album)) as [[|t tracks]|e] eqn:Htracks.
  - rewrite run_ret. cbv beta iota. rewrite decide_False by (simpl; lia).
    rewrite run_ret. eexists st, _, album. rewrite Htracks. by repeat split.
  - rewrite run_ret. cbv beta iota. rewrite decide_True by (simpl; split; [done|lia]).
    assert (Hm : length (t :: tracks) ≠ 0) by done.
    rewrite run_bind, (run_Intn _ _ Hm). cbv beta iota. cbn [tape calls stdout].
    set (r' := hd 0 (tail (tape w)) `mod` length (t :: tracks)).
    assert (Hr' : r' < length (t :: tracks)) by by apply Nat.mod_upper_bound.
    destruct (lookup_lt_is_Some_2 _ _ Hr') as [t' Ht'].
    rewrite run_bind, (run_index _ _ _ _ Ht'). cbv beta iota.
    rewrite run_bind, run_store by done. cbv beta iota.
    mstep. rewrite run_ret.
    eexists _, _, album. rewrite Htracks. cbn [calls lastArtist lastAlbums slots].
    split; [reflexivity|]. split; [done|]. split; [done|]. split; [done|].
    split; [done|]. split; [apply length_insert|].
    exists t'. split; [by eapply list_elem_of_lookup_2|done].
  - rewrite run_ret. cbv beta iota. rewrite decide_False by (intros [[=] _]).
    rewrite run_ret. eexists st, _, album. rewrite Htracks. by repeat split.
Qed.




End collect.

(** ** [BuildPlaylist] *)

Lemma foldl_compact (tracks : list (option Track)) (acc : list Track) :
  foldl (λ finalTracks track,
           match track with
           | None => finalTracks
           | Some t => finalTracks ++ [t]
           end) acc tracks = acc ++ omap id tracks.
Proof.
  revert acc. induction tracks as [|[t|] tracks IH]; intros acc; simpl.
  - by rewrite app_nil_r.
  - by rewrite IH, <- app_assoc.
  - apply IH.
Qed.

(** Compaction keeps the tracks of the filled slots, in order. *)
Lemma compact_omap (tracks : list (option Track)) : compact tracks = omap id tracks.
Proof. apply foldl_compact. Qed.

Lemma length_compact (tracks : list (option Track)) :
  length (compact tracks) ≤ length tracks.
Proof.
  rewrite compact_omap. induction tracks as [|[t|] tracks IH]; [done|..].
  - change (S (length (omap id tracks)) ≤ S (length tracks)). lia.
  - change (length (omap id tracks) ≤ S (length tracks)). lia.
Qed.

Lemma compact_empty (tracks : list (option Track)) :
  compact tracks = [] ↔ Forall (λ slot, slot = None) tracks.
Proof.
  rewrite compact_omap. induction tracks as [|[t|] tracks IH]; simpl.
  - split; [constructor|done].
  - split; [done|]. by intros [[=] _]%Forall_cons.
  - rewrite IH. split; [by constructor|by intros [_ ?]%Forall_cons].
Qed.

Section build.
Variable ToLower : string → string.
Variable b : Builder.
Context `{!Allocation ArtistID, !Allocation (option Track)}.

Lemma BuildPlaylist_stages (playlistName : string) (dryRun : bool) (w : World) :
  BuildPlaylist ToLower b playlistName dryRun w =
    (r ← gather ToLower b;
     match r with
     | inl e => mret (Some e)
     | inr finalTracks => deliver b playlistName dryRun finalTracks
     end) w.
Proof.
  unfold BuildPlaylist, gather.
  mnext as _. mnext as [artists [e|]]; [reflexivity|].
  mnext as _. cbv zeta. mnext as _. case_decide; [reflexivity|].
  mnext as selectedArtists. mnext as _.
  mnext as [sorted [tracks [e|]]]; [reflexivity|].
  mnext as _. case_decide; [reflexivity|].
  cbv zeta. mnext as _. reflexivity.
Qed.

(** The first half only reads, and can panic in two ways: on a count that
    [make] refuses, and on a failed fetch of an artist's detail. *)
Lemma gather_spec (w : World) :
  ∃ (out : outcome (error + list Track)) (w' : World) (log : list Call),
    gather ToLower b w = (out, w') ∧ calls w' = calls w ++ log ∧ reads log ∧
    match out with
    | Val (inl e) => True
    | Val (inr finalTracks) =>
        (Z.of_nat (length finalTracks) ≤ Count (Playlist_ (config b)))%Z
    | Panic p =>
        p = NilDereference ∨
        p = MakesliceLen ∧
        (Count (Playlist_ (config b)) < 0 ∨
         maxLen ArtistID < Count (Playlist_ (config b)) ∨
         maxLen (option Track) < Count (Playlist_ (config b)))%Z
    end ∧
    (∀ artists,
       favoriteArtists (client b) (calls w) = Body artists →
       FilterArtists ToLower b artists = [] →
       out = Val (inl "no artists remaining after filtering") ∧
       tape w' = tape w ∧ log = [CallGetFavoriteArtists]).
Proof.
  unfold gather. mstep. unfold GetFavoriteArtists. rewrite run_bind. mstep.
  destruct (favoriteArtists (client b) (calls w)) as [artists|e] eqn:Hfav.
  2:{ rewrite run_ret. cbv beta iota. rewrite run_ret.
      eexists _, _, [_]. split; [reflexivity|]. cbn [calls].
      split; [done|]. split; [by repeat constructor|]. split; [done|]. done. }
  rewrite run_ret. cbv beta iota zeta. do 2 mstep.
  set (filtered := FilterArtists ToLower b artists). case_decide as Hempty.
  { rewrite run_ret. eexists _, _, [_]. split; [reflexivity|]. cbn [calls tape].
    split; [done|]. split; [by repeat constructor|]. split; [done|]. done. }
  assert (Hne : filtered ≠ []) by (by destruct filtered).
  (* From here on the last part of the statement holds for want of an
     empty filtered list. *)
  assert (Hnot : ∀ P : Prop, (∀ artists', Body artists = Body artists' →
                    FilterArtists ToLower b artists' = [] → P)).
  { intros P artists' [= <-] Hnil. by destruct Hne. }
  rewrite run_bind.
  destruct (decide (Count (Playlist_ (config b)) < 0 ∨
                    maxLen ArtistID < Count (Playlist_ (config b)))%Z) as [Hneg|Hpos].
  { rewrite selectRandomItems_refused by done.
    eexists _, _, [_]. split; [reflexivity|]. cbn [calls].
    split; [done|]. split; [by repeat constructor|].
    split; [right; split; [done|lia]|]. apply Hnot. }
  rewrite selectRandomItems_run by (done || lia). cbn [tape calls stdout]. mstep.
  rewrite run_bind.
  match goal with |- context [CollectTracks b ?l ?w0] =>
    destruct (CollectTracks_spec b l w0) as (out & w1 & log & -> & Hw1 & Hlog & Hout & _);
    pose proof (length_picks (T := ArtistID) filtered
                  (Z.to_nat (Count (Playlist_ (config b)))) (tape w)) as Hpicks
  end.
  cbn [calls] in Hw1. rewrite <- app_assoc in Hw1.
  destruct out as [[sorted [tracks err]]|p].
  2:{ eexists _, _, (_ :: log). split; [reflexivity|].
      split; [done|]. split; [by constructor|].
      split; [|apply Hnot]. destruct Hout as [->|[-> Hlimit]]; [by left|right].
      split; [done|]. rewrite Hpicks in Hlimit. lia. }
  destruct Hout as (_ & -> & Hlen & _). mstep. case_decide.
  { rewrite run_ret. eexists _, _, (_ :: log). split; [reflexivity|]. cbn [calls].
    split; [done|]. split; [by constructor|]. split; [done|]. apply Hnot. }
  cbv zeta. mstep. rewrite run_ret.
  eexists _, _, (_ :: log). split; [reflexivity|]. cbn [calls].
  split; [done|]. split; [by constructor|]. split; [|apply Hnot].
  pose proof (length_compact tracks). lia.
Qed.

Lemma previewLoop_run (finalTracks : list Track) :
  ∀ (i : nat) (w : World),
    previewLoop i finalTracks w =
      (Val (),
       mkWorld (tape w) (calls w)
         (stdout w ++
          imap (λ k track,
                  "  " +:+ fmt_int (i + k + 1) +:+ ". " +:+
                  match Track_Artists track with
                  | first :: _ => Artist_Name first
                  | [] => ""
                  end +:+ " - " +:+ Track_Title track +:+ LF)
               (take (10 - i) finalTracks))).
Proof.
  induction finalTracks as [|track finalTracks IH]; intros i w.
  - rewrite take_nil. simpl. rewrite app_nil_r. by destruct w.
  - cbn [previewLoop]. case_decide as Hi.
    + replace (10 - i) with 0 by lia. simpl. rewrite app_nil_r. by destruct w.
    + cbv zeta. mstep. rewrite IH. cbn [tape calls stdout].
      replace (10 - i) with (S (10 - S i)) by lia.
      rewrite firstn_cons, imap_cons, Nat.add_0_r, <- app_assoc. simpl app.
      do 4 f_equal. apply imap_ext. intros k t _. simpl.
      by replace (i + S k) with (S (i + k)) by lia.
Qed.

(** The second half of a dry run prints, and sends nothing. *)
Lemma deliver_dry_run (playlistName : string) (finalTracks : list Track) (w : World) :
  deliver b playlistName true finalTracks w =
    (Val None,
     mkWorld (tape w) (calls w)
       (stdout w ++
        [LF +:+ "=== DRY RUN MODE ===" +:+ LF;
         "Would create/update playlist '" +:+ playlistName +:+ "' with "
           +:+ fmt_int (length finalTracks) +:+ " tracks" +:+ LF;
         LF +:+ "Tracks:" +:+ LF] ++
        preview finalTracks ++ ["  ..." +:+ LF])).
Proof.
  unfold deliver. do 3 mstep. rewrite run_bind, previewLoop_run.
  cbv beta iota. cbn [tape calls stdout]. mstep. rewrite run_ret.
  rewrite <- !app_assoc. simpl app. reflexivity.
Qed.

(** The second half of a real run does not panic. *)
Lemma deliver_run (playlistName : string) (finalTracks : list Track) (w : World) :
  ∃ (err : option error) (w' : World),
    deliver b playlistName false finalTracks w = (Val err, w').
Proof.
  unfold deliver. cbv zeta. mstep. rewrite run_bind.
  edestruct (CreateOrUpdatePlaylist_run (client b) playlistName)
    as ([playlist err] & log & out & id & -> & _ & Hsome & _).
  destruct err as [e|]; [by eexists _, _|].
  destruct (Hsome eq_refl) as (pl & Hpl & _). simpl in Hpl. subst playlist.
  simpl deref. mstep. mstep. by eexists _, _.
Qed.

End build.

(** ** The pipeline: [CollectTracks] and [BuildPlaylist] *)

Section pipeline.
Variable ToLower : string → string.
Variable b : Builder.
Context `{!Allocation ArtistID, !Allocation (option Track)}.

(** When the fetch of the first detail fails, [CollectTracks] panics on
    the [nil] artist before it can put the stub in its place. *)
Lemma CollectTracks_detail_failure (artists : list ArtistID) (w : World) :
  artists ≠ [] → (Z.of_nat (length artists) ≤ maxLen (option Track))%Z →
  (∀ h id, ∃ e, artist (client b) h id = Failed e) →
  (CollectTracks b artists w).1 = Panic NilDereference.
Proof.
  intros Hne Hlimit Hfail. unfold CollectTracks, make. rewrite decide_False by lia.
  rewrite run_bind, run_ret, run_bind.
  destruct (sortArtists artists) as [|a sorted] eqn:Hsort.
  { apply (f_equal length) in Hsort. rewrite sortArtists_perm in Hsort.
    by destruct artists. }
  cbn [collectLoop]. unfold collectStep. rewrite !run_bind, artistDetail_run.
  by destruct (Hfail (calls w) (ArtistID_ID a)) as [e ->].
Qed.

(** When the detail of every artist can be fetched, [CollectTracks]
    returns, with one slot per sampled artist. *)
Lemma CollectTracks_length (artists : list ArtistID) (w : World) :
  (Z.of_nat (length artists) ≤ maxLen (option Track))%Z →
  (∀ h id, ∃ described, artist (client b) h id = Body described) →
  ∃ sorted tracks w',
    CollectTracks b artists w = (Val (sorted, (tracks, None)), w') ∧
    length tracks = length artists.
Proof.
  intros Hlimit Hdetails.
  destruct (CollectTracks_spec b artists w) as (out & w' & log & Hrun & _ & _ & Hout & Hok).
  destruct (Hok Hlimit Hdetails) as [[sorted [tracks err]] ->].
  destruct Hout as (_ & -> & Hlen & _). by exists sorted, tracks, w'.
Qed.


(** C9. In a dry run [BuildPlaylist] sends only reads, whatever happens:
    no creation, deletion, metadata update or track write. When the
    first half of the run yields the final track list, the dry run sends
    nothing more, prints the three header lines, the preview and the
    closing line, and returns no error; the preview has one line for
    each of the first 10 tracks at most, with the rank, the name of the
    first listed artist and the title. *)
Theorem BuildPlaylist_dry_run (playlistName : string) (w : World) :
  ∃ (out : outcome (option error)) (w' : World) (log : list Call),
    BuildPlaylist ToLower b playlistName true w = (out, w') ∧
    calls w' = calls w ++ log ∧
    Forall (λ call, is_mutation call = false) log ∧
    ∀ finalTracks w1,
      gather ToLower b w = (Val (inr finalTracks), w1) →
      out = Val None ∧ calls w' = calls w1 ∧
      stdout w' =
        stdout w1 ++
        [LF +:+ "=== DRY RUN MODE ===" +:+ LF;
         "Would create/update playlist '" +:+ playlistName +:+ "' with "
           +:+ fmt_int (length finalTracks) +:+ " tracks" +:+ LF;
         LF +:+ "Tracks:" +:+ LF] ++
        preview finalTracks ++ ["  ..." +:+ LF] ∧
      length (preview finalTracks) = min 10 (length finalTracks).
Proof.
  rewrite BuildPlaylist_stages, run_bind.
  destruct (gather_spec ToLower b w) as (out & w1 & log & Hrun & Hcalls & Hreads & _).
  rewrite Hrun. destruct out as [[e|finalTracks]|p].
  - rewrite run_ret. by exists (Val (Some e)), w1, log.
  - rewrite deliver_dry_run. eexists _, _, log. split; [reflexivity|].
    cbn [calls stdout]. split; [done|]. split; [done|].
    intros ? ? [= <- <-]. split; [done|]. split; [done|]. split; [done|].
    unfold preview. by rewrite length_imap, length_take.
  - by exists (Panic p), w1, log.
Qed.

(** C10. Sampling from an empty source panics in [rand.Intn] as soon as
    one item is asked for, with a count for which [make] allocates the
    result. [BuildPlaylist] never gets there: when the
    filter leaves no artist it returns its error before any number is
    drawn, and no run of it ends in that panic. *)
Theorem sampling_source_never_empty (playlistName : string) (dryRun : bool) (w : World) :
  (∀ count w0, (1 ≤ count ≤ maxLen ArtistID)%Z →
     selectRandomItems (T := ArtistID) count [] w0 = (Panic IntnArgument, w0)) ∧
  (∀ artists,
     favoriteArtists (client b) (calls w) = Body artists →
     FilterArtists ToLower b artists = [] →
     ∃ w', BuildPlaylist ToLower b playlistName dryRun w =
             (Val (Some "no artists remaining after filtering"), w') ∧
           tape w' = tape w) ∧
  (BuildPlaylist ToLower b playlistName dryRun w).1 ≠ Panic IntnArgument.
Proof.
  split; [|split].
  - intros count w0 Hcount. unfold selectRandomItems, make.
    rewrite decide_False by lia. rewrite run_bind, run_ret.
    destruct (Z.to_nat count) as [|n] eqn:Hn; [lia|]. done.
  - intros artists Hfav Hnone. rewrite BuildPlaylist_stages, run_bind.
    destruct (gather_spec ToLower b w) as (out & w1 & log & -> & _ & _ & _ & Hempty).
    destruct (Hempty artists Hfav Hnone) as (-> & Htape & _).
    rewrite run_ret. by exists w1.
  - rewrite BuildPlaylist_stages, run_bind.
    destruct (gather_spec ToLower b w) as (out & w1 & log & -> & _ & _ & Hout & _).
    destruct out as [[e|finalTracks]|p]; [done| |].
    + destruct dryRun.
      * by rewrite deliver_dry_run.
      * by destruct (deliver_run b playlistName finalTracks w1) as (err & w' & ->).
    + simpl. by destruct Hout as [->|[-> _]].
Qed.

End pipeline.

(** C2. The detail of an artist cannot be fetched: [CollectTracks] does not
    put the stub in place and go on, it panics at the first artist, on
    the [nil] pointer the warning reads the identifier from. *)
Theorem CollectTracks_detail_failure_panics :
  CollectTracks demo.detail_fails [mkArtistID "B2"; mkArtistID "a1"] (demo.start []) =
    (Panic NilDereference, mkWorld [] [CallGetArtist "B2"] []).
Proof. vm_compute. reflexivity. Qed.

(** C5. The same failure with three sampled artists: [CollectTracks]
    returns no slice of three slots, it panics after the first request
    for a detail; and so does a run of [BuildPlaylist] with a count of 3. *)
Theorem CollectTracks_no_slice_on_detail_failure :
  CollectTracks demo.detail_fails
      [mkArtistID "a1"; mkArtistID "C3"; mkArtistID "a1"] (demo.start []) =
    (Panic NilDereference, mkWorld [] [CallGetArtist "C3"] []) ∧
  ∃ w', BuildPlaylist ascii_ToLower demo.detail_fails "Mix" true (demo.start [1; 2; 1]) =
          (Panic NilDereference, w') ∧
        calls w' = [CallGetFavoriteArtists; CallGetArtist "C3"].
Proof. split; [|eexists; split]; vm_compute; reflexivity. Qed.

(** C3. No track of any album can be fetched, so that every collected slot
    is empty: [BuildPlaylist] tests the length of the slice of slots, 2,
    instead of the length of the final track list, 0, returns no error,
    deletes the two playlists titled [Mix] and creates an empty one. *)
Theorem BuildPlaylist_empty_final_list_succeeds :
  ∃ w', BuildPlaylist ascii_ToLower demo.tracks_fail "Mix" false (demo.start []) =
          (Val None, w') ∧
        calls w' =
          [CallGetFavoriteArtists;
           CallGetArtist "B2"; CallGetArtistAlbums "B2"; CallGetAlbumTracks "album-B2";
           CallGetArtist "B2"; CallGetAlbumTracks "album-B2";
           CallGetUserPlaylists; CallDeletePlaylist "p1"; CallDeletePlaylist "p3";
           CallCreatePlaylist "Mix" "Generated by tidal-playlist"].
Proof. eexists. split; vm_compute; reflexivity. Qed.

(** C6 as stated fails: not every count [N >= 0] gives [N] items. For a
    count above the longest slice the runtime allocates, here [2^62],
    [make] panics and [selectRandomItems] returns nothing. *)
Lemma selectRandomItems_count_refused :
  (0 ≤ 2 ^ 62)%Z ∧ demo.favorites ≠ [] ∧
  selectRandomItems (2 ^ 62) demo.favorites (demo.start [0; 1; 2]) =
    (Panic MakesliceLen, demo.start [0; 1; 2]).
Proof.
  split; [done|]. split; [done|]. apply selectRandomItems_refused. by right.
Qed.


(** ** The theorems at work on the examples *)

Lemma demo_upsert_succeeds : upsert_succeeds demo.service.
Proof. repeat split; intros; simpl; by eauto. Qed.

(** C1 on the favorites [B2], [a1], [C3]: the whitelist [A1], [c3] keeps
    [a1] and [C3], although [a1] is blacklisted too; the blacklist [b2]
    alone drops [B2]; without lists all three stay. *)
Lemma FilterArtists_spec_witness :
  FilterArtists ascii_ToLower demo.both_lists demo.favorites =
    [mkArtistID "a1"; mkArtistID "C3"] ∧
  FilterArtists ascii_ToLower demo.without_b2 demo.favorites =
    [mkArtistID "a1"; mkArtistID "C3"] ∧
  FilterArtists ascii_ToLower demo.plain demo.favorites = demo.favorites.
Proof.
  split; [|split].
  - rewrite (proj1 (FilterArtists_spec ascii_ToLower demo.both_lists demo.favorites));
      [vm_compute; reflexivity|discriminate].
  - rewrite (proj1 (proj2 (FilterArtists_spec ascii_ToLower demo.without_b2 demo.favorites)));
      [vm_compute; reflexivity|reflexivity|discriminate].
  - apply (proj2 (proj2 (FilterArtists_spec ascii_ToLower demo.plain demo.favorites)));
      reflexivity.
Defined.

(** C6 on four draws from the three favorites. *)
Lemma selectRandomItems_spec_witness :
  (∃ out w',
     selectRandomItems 4 demo.favorites (demo.start [4; 0; 2]) = (Val out, w') ∧
     Z.of_nat (length out) = 4%Z ∧ (∀ x, x ∈ out → x ∈ demo.favorites) ∧
     calls w' = [] ∧ stdout w' = []) ∧
  (∃ tape out w',
     selectRandomItems 4 demo.favorites (demo.start tape) = (Val out, w') ∧
     ¬ NoDup out).
Proof.
  destruct (selectRandomItems_spec 4 demo.favorites (demo.start [4; 0; 2]))
    as [Hfits _]; [lia|discriminate|].
  destruct Hfits as (Hdraw & Hrepeat & _); [by vm_compute|].
  split; [exact Hdraw|]. apply Hrepeat. simpl. lia.
Defined.

(** C7 on the service that lists [Mix] twice: both are deleted, one [Mix]
    is created, and the writes follow. *)
Lemma CreateOrUpdatePlaylist_upsert_witness :
  ∃ p w' id writes,
    CreateOrUpdatePlaylist demo.service "Mix" "new" demo.ids45 (demo.start []) =
      (Val (Some p, None), w') ∧
    Forall (λ call, ∃ ids, call = CallSetPlaylistTracks id ids) writes ∧
    calls w' =
      [CallGetUserPlaylists; CallDeletePlaylist "p1"; CallDeletePlaylist "p3";
       CallCreatePlaylist "Mix" "new"] ++ writes.
Proof.
  destruct (CreateOrUpdatePlaylist_upsert demo.service "Mix" "new" demo.ids45 (demo.start []))
    as ([pl err] & w' & log & id & writes & Hrun & Hcalls & Hwrites & _ & Hall & Hok).
  pose proof (Hok demo_upsert_succeeds) as Herr. simpl in Herr. subst err.
  destruct (Hall eq_refl) as (p & Hp & _ & Hlog). simpl in Hp. subst pl.
  exists p, w', id, writes. split; [exact Hrun|]. split; [exact Hwrites|].
  rewrite Hcalls, Hlog. reflexivity.
Defined.

(** C8 on 45 identifiers: three writes, of 20, 20 and 5. *)
Lemma CreateOrUpdatePlaylist_batches_witness :
  ∃ r w' log,
    CreateOrUpdatePlaylist demo.service "Mix" "new" demo.ids45 (demo.start []) =
      (Val r, w') ∧
    calls w' = log ∧ mjoin (written log) = demo.ids45 ∧
    length <$> written log = [20; 20; 5].
Proof.
  destruct (CreateOrUpdatePlaylist_batches demo.service "Mix" "new" demo.ids45 (demo.start []))
    as (r & w' & log & Hrun & Hcalls & _ & _ & Hall & H45 & Hok).
  exists r, w', log. split; [exact Hrun|]. split; [exact Hcalls|].
  pose proof (Hok demo_upsert_succeeds) as Herr.
  split; [exact (Hall Herr)|exact (H45 Herr eq_refl)].
Defined.

(** C9 on the blacklist [b2] and a count of 2: the dry run reads, previews
    the two tracks and returns no error. *)
Lemma BuildPlaylist_dry_run_witness :
  ∃ w',
    BuildPlaylist ascii_ToLower demo.without_b2 "Mix" true (demo.start [1; 0]) =
      (Val None, w') ∧
    Forall (λ call, is_mutation call = false) (calls w') ∧
    drop 15 (stdout w') =
      ["  1.  - Track on album-C3" +:+ LF; "  2.  - Track on album-a1" +:+ LF;
       "  ..." +:+ LF].
Proof.
  destruct (BuildPlaylist_dry_run ascii_ToLower demo.without_b2 "Mix" (demo.start [1; 0]))
    as (out & w' & log & Hrun & Hcalls & Hreads & Hpreview).
  edestruct Hpreview as (-> & _ & Hout & _); [vm_compute; reflexivity|].
  exists w'. split; [exact Hrun|]. split; [rewrite Hcalls; exact Hreads|].
  rewrite Hout. vm_compute. reflexivity.
Defined.

(** C10 on a whitelist that matches no favorite: the run stops with its
    error, the tape untouched. *)
Lemma sampling_source_never_empty_witness :
  selectRandomItems (T := ArtistID) 2 [] (demo.start [1; 0]) =
    (Panic IntnArgument, demo.start [1; 0]) ∧
  ∃ w',
    BuildPlaylist ascii_ToLower demo.nobody "Mix" false (demo.start [1; 0]) =
      (Val (Some "no artists remaining after filtering"), w') ∧
    tape w' = [1; 0].
Proof.
  destruct (sampling_source_never_empty ascii_ToLower demo.nobody "Mix" false (demo.start [1; 0]))
    as (Hpanic & Hstop & _).
  split; [apply Hpanic; split; by vm_compute|].
  apply (Hstop demo.favorites); reflexivity.
Defined.

(** * More properties of the program *)

(** ** The filters *)

Section filter_more.
Variable ToLower : string → string.

Lemma matches_lowered (names : list string) (a : ArtistID) :
  matches ToLower names a ↔ ToLower (ArtistID_ID a) ∈ ToLower <$> names.
Proof.
  unfold matches. rewrite Exists_exists, list_elem_of_fmap.
  split; intros (name & ? & ?); exists name; done.
Qed.

(** In its three modes [FilterArtists] keeps the artists that pass. *)
Lemma FilterArtists_filter (b : Builder) (artists : list ArtistID) :
  FilterArtists ToLower b artists = filter (passes ToLower (config b)) artists.
Proof.
  unfold FilterArtists.
  destruct (Whitelist (Filters (config b))) as [|name whitelist] eqn:Hw.
  - rewrite decide_False by (simpl; lia).
    destruct (Blacklist (Filters (config b))) as [|name blacklist] eqn:Hb.
    + rewrite decide_False by (simpl; lia). symmetry.
      induction artists as [|a artists IH]; [done|].
      rewrite filter_cons_True, IH; [done|]. unfold passes.
      rewrite Hw, Hb, decide_True by done. by intros ?%Exists_nil.
    + rewrite decide_True by (simpl; lia). rewrite filterByBlacklist_filter.
      apply list_filter_iff. intros a. unfold passes.
      rewrite Hw, Hb, decide_True by done. done.
  - rewrite decide_True by (simpl; lia). rewrite filterByWhitelist_filter.
    apply list_filter_iff. intros a. unfold passes.
    rewrite Hw, decide_False by done. done.
Qed.

(** X1. [FilterArtists] only drops artists: its result is the input with
    some artists left out, in the same order; filtering twice changes
    nothing more; and an artist is kept or dropped whatever the other
    artists are, so that filtering two lists put end to end is filtering
    each. *)
Theorem FilterArtists_drops_only (b : Builder) (artists more : list ArtistID) :
  FilterArtists ToLower b artists `sublist_of` artists ∧
  FilterArtists ToLower b (FilterArtists ToLower b artists) =
    FilterArtists ToLower b artists ∧
  FilterArtists ToLower b (artists ++ more) =
    FilterArtists ToLower b artists ++ FilterArtists ToLower b more.
Proof.
  rewrite !FilterArtists_filter. split; [apply sublist_filter|].
  split; [|apply filter_app].
  rewrite list_filter_filter. apply list_filter_iff. tauto.
Qed.

(** X2. The filters see the names of the configuration only lowered and
    as a set: two configurations whose whitelists, and whose blacklists,
    have the same lowered names filter alike, whatever the order, the
    case and the repetitions of the entries. *)
Theorem FilterArtists_lowered_names (b1 b2 : Builder) (artists : list ArtistID) :
  same_names ToLower (Whitelist (Filters (config b1))) (Whitelist (Filters (config b2))) →
  same_names ToLower (Blacklist (Filters (config b1))) (Blacklist (Filters (config b2))) →
  FilterArtists ToLower b1 artists = FilterArtists ToLower b2 artists.
Proof.
  intros Hw Hb. rewrite !FilterArtists_filter. apply list_filter_iff. intros a.
  unfold passes.
  assert (Hnil : Whitelist (Filters (config b1)) = [] ↔
                 Whitelist (Filters (config b2)) = []).
  { destruct (Whitelist (Filters (config b1))) as [|n1 l1],
             (Whitelist (Filters (config b2))) as [|n2 l2]; try done.
    - assert (Hin : ToLower n2 ∈ ToLower <$> n2 :: l2) by by left.
      apply Hw in Hin. by apply elem_of_nil in Hin.
    - assert (Hin : ToLower n1 ∈ ToLower <$> n1 :: l1) by by left.
      apply Hw in Hin. by apply elem_of_nil in Hin. }
  destruct (decide (Whitelist (Filters (config b1)) = [])) as [H1|H1].
  - rewrite decide_True by by apply Hnil. by rewrite !matches_lowered, (Hb _).
  - rewrite decide_False by (by rewrite <- Hnil). by rewrite !matches_lowered, (Hw _).
Qed.
End filter_more.

(** X2 on the whitelist [A1], [c3] and the same names reordered, in
    another case and repeated. *)
Lemma FilterArtists_lowered_names_witness :
  FilterArtists ascii_ToLower demo.both_lists demo.favorites =
  FilterArtists ascii_ToLower demo2.reordered demo.favorites.
Proof.
  apply FilterArtists_lowered_names; intros k; simpl;
    rewrite !elem_of_cons, !elem_of_nil; tauto.
Defined.

(** ** The client *)

Section client_more.
Variable c : Client.

Lemma firstTitled_head (name : string) (playlists : list Playlist) :
  firstTitled name playlists = head (filter (λ p, GetTitle p = name) playlists).
Proof.
  induction playlists as [|p playlists IH]; [done|]. simpl. case_decide.
  - by rewrite filter_cons_True.
  - by rewrite filter_cons_False.
Qed.

(** X3. [FindPlaylistByName] returns the first of the playlists that
    [FindAllPlaylistsByName] returns from the same listing, with the same
    error: [nil] without an error when no title is exactly the name. The
    match is by equality of the titles, case included. *)
Theorem FindPlaylistByName_first (name : string) (w : World) :
  ∃ (matches : list Playlist) (err : option error) (w' : World),
    FindAllPlaylistsByName c name w = (Val (matches, err), w') ∧
    FindPlaylistByName c name w = (Val (head matches, err), w') ∧
    Forall (λ p, GetTitle p = name) matches ∧
    matches `sublist_of` listed c (calls w).
Proof.
  rewrite FindAllPlaylistsByName_run. unfold FindPlaylistByName, GetUserPlaylists, listed.
  rewrite run_bind. mstep.
  destruct (userPlaylists c (calls w)) as [data|e]; rewrite run_ret; cbv beta iota;
    rewrite run_ret.
  - eexists _, _, _. split; [reflexivity|]. rewrite firstTitled_head.
    split; [reflexivity|]. split; [|apply sublist_filter].
    apply Forall_forall. by intros p [? _]%list_elem_of_filter.
  - eexists _, _, _. split; [reflexivity|]. split; [reflexivity|].
    split; [constructor|constructor].
Qed.
Lemma written_lookup_prefix (log full : list Call) (k : nat) (ids : list string) :
  log `prefix_of` full → written log !! k = Some ids → written full !! k = Some ids.
Proof.
  intros Hpre%written_prefix Hk. by eapply prefix_lookup_Some.
Qed.

Lemma batches_lookup (trackIDs : list string) (k : nat) (ids : list string) :
  batches trackIDs !! k = Some ids →
  k < batchCount trackIDs ∧ ids = take 20 (drop (20 * k) trackIDs).
Proof.
  unfold batches. rewrite list_lookup_fmap. intros Hk.
  destruct (seq 0 (batchCount trackIDs) !! k) as [j|] eqn:Hj; [|done].
  apply lookup_seq in Hj as [-> Hlt]. by injection Hk as <-.
Qed.

Lemma batchCount_div (trackIDs : list string) :
  batchCount trackIDs = (length trackIDs + 19) / 20.
Proof. reflexivity. Qed.

(** X4. The write number [k] of [CreateOrUpdatePlaylist], counted from 0,
    carries the identifiers at the positions [20 k] to [20 k + 19] of the
    input, also in a run that fails later. There are never more than
    [(n + 19) / 20] writes for [n] identifiers; when no error is returned
    there are exactly that many, none for an empty input, and all but the
    last carry 20 identifiers. *)
Theorem CreateOrUpdatePlaylist_write_positions (name description : string)
    (trackIDs : list string) (w : World) :
  ∃ (r : option Playlist * option error) (w' : World) (log : list Call),
    CreateOrUpdatePlaylist c name description trackIDs w = (Val r, w') ∧
    calls w' = calls w ++ log ∧
    (∀ k ids, written log !! k = Some ids →
       ids = take 20 (drop (20 * k) trackIDs)) ∧
    length (written log) ≤ (length trackIDs + 19) / 20 ∧
    (r.2 = None →
       length (written log) = (length trackIDs + 19) / 20 ∧
       ∀ k ids, written log !! k = Some ids → S k < length (written log) →
                length ids = 20).
Proof.
  destruct (CreateOrUpdatePlaylist_run c name description trackIDs w)
    as (r & log & out & id & Hrun & Hpre & Hall & _).
  exists r. eexists. exists log. split; [exact Hrun|]. split; [done|].
  assert (Hlen : length (batches trackIDs) = (length trackIDs + 19) / 20).
  { unfold batches. by rewrite length_fmap, length_seq. }
  split; [|split].
  - intros k ids Hk. eapply written_lookup_prefix in Hk; [|done].
    rewrite written_upsert_calls in Hk. by apply batches_lookup in Hk as [_ ->].
  - apply written_prefix, prefix_length in Hpre.
    by rewrite written_upsert_calls, Hlen in Hpre.
  - intros (p & _ & _ & ->)%Hall. rewrite written_upsert_calls. split; [done|].
    intros k ids Hk Hlast. rewrite Hlen, <- batchCount_div in Hlast.
    apply batches_lookup in Hk as [_ ->].
    apply batchCount_lt in Hlast. unfold batchSize in Hlast.
    rewrite length_take, length_drop. lia.
Qed.

Lemma split_at_only {A} (P : A → Prop) (l1 l2 r1 r2 : list A) (x y : A) :
  l1 ++ x :: r1 = l2 ++ y :: r2 →
  P x → Forall (λ z, ¬ P z) l2 → Forall (λ z, ¬ P z) r2 →
  l1 = l2 ∧ x = y ∧ r1 = r2.
Proof.
  revert l2. induction l1 as [|a l1 IH]; intros [|z l2] Heq Hx Hl2 Hr2; simpl in Heq.
  - by injection Heq as -> ->.
  - injection Heq as -> _. by apply Forall_cons in Hl2 as [[] _].
  - injection Heq as -> <-. by apply Forall_app in Hr2 as [_ [[] _]%Forall_cons].
  - injection Heq as -> Heq. apply Forall_cons in Hl2 as [_ Hl2].
    by destruct (IH l2 Heq Hx Hl2 Hr2) as (-> & -> & ->).
Qed.

(** X5. In every run of [CreateOrUpdatePlaylist], failed or not, a
    creation is sent at most once; it carries the name and the
    description asked for; before it come the listing and the deletion of
    every listed playlist with the title, and nothing else; after it come
    track writes to one playlist only. So a playlist is never created
    while a same-named one is left, and nothing is deleted or undone once
    the new playlist exists, not even when a write fails. *)
Theorem CreateOrUpdatePlaylist_around_creation (name description : string)
    (trackIDs : list string) (w : World) :
  let existing := filter (λ p, GetTitle p = name) (listed c (calls w)) in
  ∃ (r : option Playlist * option error) (w' : World) (log : list Call) (id : string),
    CreateOrUpdatePlaylist c name description trackIDs w = (Val r, w') ∧
    calls w' = calls w ++ log ∧
    ∀ before after title description',
      log = before ++ CallCreatePlaylist title description' :: after →
      title = name ∧ description' = description ∧
      before = CallGetUserPlaylists :: (CallDeletePlaylist ∘ Playlist_ID <$> existing) ∧
      Forall (λ call, ∃ ids, call = CallSetPlaylistTracks id ids) after.
Proof.
  intros existing.
  destruct (CreateOrUpdatePlaylist_run c name description trackIDs w)
    as (r & log & out & id & Hrun & [rest Hpre] & _ & _).
  exists r. eexists. exists log, id. split; [exact Hrun|]. split; [done|].
  intros before after title description' ->. fold existing in Hpre.
  unfold upsert_calls in Hpre. rewrite <- app_assoc in Hpre. simpl in Hpre.
  symmetry in Hpre.
  change (CallGetUserPlaylists :: ?l ++ ?r) with ((CallGetUserPlaylists :: l) ++ r) in Hpre.
  apply (split_at_only (λ call, ∃ t d, call = CallCreatePlaylist t d)) in Hpre
    as (-> & [= -> ->] & Hafter).
  - split; [done|]. split; [done|]. split; [done|].
    assert (Hwrites : Forall (λ call, ∃ ids, call = CallSetPlaylistTracks id ids)
                        (CallSetPlaylistTracks id <$> batches trackIDs)).
    { apply Forall_fmap, Forall_forall. intros ids _. by exists ids. }
    rewrite <- Hafter in Hwrites. by apply Forall_app in Hwrites as [? _].
  - by eexists _, _.
  - constructor; [by intros (? & ? & [=])|].
    apply Forall_fmap, Forall_forall. by intros p _ (? & ? & [=]).
  - apply Forall_fmap, Forall_forall. by intros ids _ (? & ? & [=]).
Qed.
End client_more.

(** ** The requests of [CollectTracks] *)

Lemma albumRequests_app (l1 l2 : list Call) :
  albumRequests (l1 ++ l2) = albumRequests l1 ++ albumRequests l2.
Proof. apply omap_app. Qed.

Lemma detailRequests_app (l1 l2 : list Call) :
  detailRequests (l1 ++ l2) = detailRequests l1 ++ detailRequests l2.
Proof. apply omap_app. Qed.

Lemma trackRequests_app (l1 l2 : list Call) :
  trackRequests (l1 ++ l2) = trackRequests l1 ++ trackRequests l2.
Proof. apply omap_app. Qed.

Section collect_more.
Variable b : Builder.
Context `{!Allocation ArtistID, !Allocation (option Track)}.

(** Without albums every round stops after two requests, and what was
    kept before stays empty. *)
Lemma collectLoop_without_albums (artists : list ArtistID) :
  (∀ h id, ∃ described, artist (client b) h id = Body described) →
  (∀ h id, artistAlbums (client b) h id = Body [] ∨
           ∃ e, artistAlbums (client b) h id = Failed e) →
  ∀ (i : nat) (st : collectState) (w : World),
    lastArtist st = "" →
    ∃ (w' : World) (log : list Call),
      collectLoop b i artists st w = (Val st, w') ∧ calls w' = calls w ++ log ∧
      detailRequests log = ArtistID_ID <$> artists ∧
      length (albumRequests log) = length artists ∧
      trackRequests log = [] ∧ tape w' = tape w.
Proof.
  intros Hdetail Hnone. induction artists as [|a artists IH]; intros i st w Hlast.
  - exists w, []. simpl. by rewrite app_nil_r.
  - cbn [collectLoop]. unfold collectStep. rewrite !run_bind, artistDetail_run.
    destruct (Hdetail (calls w) (ArtistID_ID a)) as [described ->]. rewrite run_bind.
    edestruct (artistAlbumsCached_fetch b described st) as [out ->]; [by left|].
    cbn [calls].
    assert (Hno : match artistAlbums (client b) (calls w ++ [CallGetArtist (ArtistID_ID a)])
                          (Artist_ID described) with
                  | Body albums =>
                      if decide (albums = []) then None
                      else Some (mkCollectState (Artist_ID described) (take 100 albums)
                                                (slots st))
                  | Failed _ => None
                  end = None).
    { by destruct (Hnone (calls w ++ [CallGetArtist (ArtistID_ID a)]) (Artist_ID described))
        as [->|[e ->]]. }
    rewrite Hno, run_ret.
    edestruct (IH (S i) st) as (w' & log & -> & Hcalls & Hd & Ha & Ht & Htape); [done|].
    exists w', (CallGetArtist (ArtistID_ID a) :: CallGetArtistAlbums (Artist_ID described) :: log).
    split; [done|]. cbn [calls tape] in *. rewrite <- !app_assoc in Hcalls.
    split; [done|]. unfold detailRequests, albumRequests, trackRequests in *.
    cbn. rewrite Hd, Ha, Ht. done.
Qed.

(** X6. When the runtime allocates the slots, and the detail of every
    artist can be fetched but no albums can, because the request fails or
    lists none, [CollectTracks] goes on and
    returns one empty slot per artist. It asks for no tracks and draws no
    random number, and it asks for the albums again at every slot: a
    failure is not remembered for the next slot of the same artist. *)
Theorem CollectTracks_without_albums (artists : list ArtistID) (w : World) :
  (Z.of_nat (length artists) ≤ maxLen (option Track))%Z →
  (∀ h id, ∃ described, artist (client b) h id = Body described) →
  (∀ h id, artistAlbums (client b) h id = Body [] ∨
           ∃ e, artistAlbums (client b) h id = Failed e) →
  ∃ (w' : World) (log : list Call),
    CollectTracks b artists w =
      (Val (sortArtists artists, (replicate (length artists) None, None)), w') ∧
    calls w' = calls w ++ log ∧
    detailRequests log = ArtistID_ID <$> sortArtists artists ∧
    length (albumRequests log) = length artists ∧
    trackRequests log = [] ∧ tape w' = tape w.
Proof.
  intros Hlimit Hdetail Hnone. unfold CollectTracks, make. rewrite decide_False by lia.
  rewrite run_bind, run_ret, Nat2Z.id, run_bind.
  change (@inhabitant (option Track) _) with (@None Track).
  edestruct (collectLoop_without_albums (sortArtists artists) Hdetail Hnone 0)
    as (w' & log & -> & Hcalls & Hd & Ha & Ht & Htape); [reflexivity|].
  rewrite run_ret. exists w', log. cbn [slots].
  rewrite sortArtists_perm in Ha. done.
Qed.

(** A round on a service with details and albums for every artist. *)
Lemma collectStep_with_albums (i : nat) (a : ArtistID) (st : collectState) (w : World) :
  (∀ h id, ∃ described, artist (client b) h id = Body described) →
  has_albums (client b) →
  (lastArtist st ≠ "" → lastAlbums st ≠ []) → i < length (slots st) →
  ∃ (described : Artist) (st' : collectState) (w' : World) (album : Album),
    artist (client b) (calls w) (ArtistID_ID a) = Body described ∧
    collectStep b i a st w = (Val st', w') ∧
    calls w' =
      calls w ++ [CallGetArtist (ArtistID_ID a)] ++
      (if decide (lastArtist st = "" ∨ lastArtist st ≠ Artist_ID described)
       then [CallGetArtistAlbums (Artist_ID described)] else []) ++
      [CallGetAlbumTracks (Album_ID album)] ∧
    lastArtist st' = Artist_ID described ∧ lastAlbums st' ≠ [] ∧
    length (slots st') = length (slots st) ∧
    ((∀ h id, albumTracks (client b) h id = Body [] ∨
              ∃ e, albumTracks (client b) h id = Failed e) →
     slots st' = slots st).
Proof.
  intros Hdetail Halbums Hinv Hi. unfold collectStep.
  rewrite !run_bind, artistDetail_run.
  destruct (Hdetail (calls w) (ArtistID_ID a)) as [described Hd]. rewrite Hd, run_bind.
  exists described.
  assert (Hstep : ∃ st1 w1,
            artistAlbumsCached b (Some described) st
              (mkWorld (tape w) (calls w ++ [CallGetArtist (ArtistID_ID a)]) (stdout w)) =
              (Val (Some st1), w1) ∧
            calls w1 =
              calls w ++ [CallGetArtist (ArtistID_ID a)] ++
              (if decide (lastArtist st = "" ∨ lastArtist st ≠ Artist_ID described)
               then [CallGetArtistAlbums (Artist_ID described)] else []) ∧
            lastArtist st1 = Artist_ID described ∧ lastAlbums st1 ≠ [] ∧
            slots st1 = slots st).
  { case_decide as Hfetch.
    - edestruct (artistAlbumsCached_fetch b described st) as [out ->]; [done|].
      cbn [calls].
      destruct (Halbums (calls w ++ [CallGetArtist (ArtistID_ID a)]) (Artist_ID described))
        as (albums & -> & Hne).
      rewrite decide_False by done. eexists _, _. split; [reflexivity|].
      cbn [calls lastArtist lastAlbums slots]. rewrite <- app_assoc.
      repeat split; try done. by destruct albums.
    - assert (lastArtist st ≠ "" ∧ lastArtist st = Artist_ID described) as [Hne Hsame].
      { split; [tauto|]. destruct (decide (lastArtist st = Artist_ID described)); tauto. }
      rewrite (artistAlbumsCached_kept b) by done. eexists _, _. split; [reflexivity|].
      cbn [calls]. rewrite app_nil_r. repeat split; try done. by apply Hinv. }
  destruct Hstep as (st1 & w1 & -> & Hcalls1 & Hlast1 & Halbums1 & Hslots1).
  edestruct (randomTrackInto_calls b i st1 w1)
    as (st' & w' & album & -> & Hcalls' & _ & Hlast' & Halbums' & Hlen' & Hslot);
    [done|by rewrite Hslots1|].
  exists st', w', album. split; [done|]. split; [done|].
  split; [by rewrite Hcalls', Hcalls1, <- !app_assoc|].
  split; [congruence|]. split; [congruence|]. split; [congruence|].
  intros Hnone. rewrite <- Hslots1.
  by destruct (Hnone (calls w1) (Album_ID album)) as [Ht|[e Ht]]; rewrite Ht in Hslot.
Qed.

Lemma collectLoop_with_albums (artists : list ArtistID) :
  (∀ h id, ∃ described, artist (client b) h id = Body described) →
  has_albums (client b) →
  ∀ (i : nat) (st : collectState) (w : World),
    (lastArtist st ≠ "" → lastAlbums st ≠ []) →
    i + length artists ≤ length (slots st) →
    ∃ (st' : collectState) (w' : World) (log : list Call),
      collectLoop b i artists st w = (Val st', w') ∧ calls w' = calls w ++ log ∧
      length (slots st') = length (slots st) ∧
      detailRequests log = ArtistID_ID <$> artists ∧
      length (trackRequests log) = length artists ∧
      (echoes (client b) →
       albumRequests log = fetched (lastArtist st) (ArtistID_ID <$> artists)) ∧
      ((∀ h id, albumTracks (client b) h id = Body [] ∨
                ∃ e, albumTracks (client b) h id = Failed e) →
       slots st' = slots st).
Proof.
  intros Hdetail Halbums. induction artists as [|a artists IH]; intros i st w Hinv Hlen.
  - exists st, w, []. simpl. by rewrite app_nil_r.
  - cbn [collectLoop]. rewrite run_bind. simpl in Hlen.
    edestruct (collectStep_with_albums i a st w)
      as (described & st1 & w1 & album & Hd & -> & Hcalls1 & Hlast1 & Halbums1 & Hlen1 & Hslots1);
      [done|done|done|lia|].
    edestruct (IH (S i) st1 w1)
      as (st' & w' & log & -> & Hcalls & Hlen' & Hdet & Htr & Halb & Hslots);
      [done|lia|].
    exists st', w'. eexists. split; [done|].
    split; [by rewrite Hcalls, Hcalls1, <- !app_assoc|]. split; [congruence|].
    rewrite !detailRequests_app, !trackRequests_app, !albumRequests_app.
    change (detailRequests [CallGetArtist (ArtistID_ID a)]) with [ArtistID_ID a].
    change (detailRequests [CallGetAlbumTracks (Album_ID album)]) with (@nil string).
    change (trackRequests [CallGetArtist (ArtistID_ID a)]) with (@nil string).
    change (trackRequests [CallGetAlbumTracks (Album_ID album)]) with [Album_ID album].
    change (albumRequests [CallGetArtist (ArtistID_ID a)]) with (@nil string).
    change (albumRequests [CallGetAlbumTracks (Album_ID album)]) with (@nil string).
    assert (Hif : ∀ (c : bool) id,
              detailRequests (if c then [CallGetArtistAlbums id] else []) = [] ∧
              trackRequests (if c then [CallGetArtistAlbums id] else []) = [] ∧
              albumRequests (if c then [CallGetArtistAlbums id] else []) =
                if c then [id] else []) by by intros [].
    split; [|split; [|split]].
    + destruct (decide _); simpl; by rewrite Hdet.
    + destruct (decide _); simpl; by rewrite Htr.
    + intros Hecho. destruct (Hecho (calls w) (ArtistID_ID a)) as [name Hname].
      rewrite Hd in Hname. injection Hname as ->. simpl in *.
      rewrite (Halb Hecho), Hlast1. by destruct (decide _).
    + intros Hnone. rewrite (Hslots Hnone). by apply Hslots1.
Qed.

(** X7. When the runtime allocates the slots, and details and albums can
    be fetched for every artist but the tracks of no album can, because
    the request fails or lists none,
    [CollectTracks] goes on and returns one empty slot per artist, after
    one request for tracks at every slot. *)
Theorem CollectTracks_without_tracks (artists : list ArtistID) (w : World) :
  (Z.of_nat (length artists) ≤ maxLen (option Track))%Z →
  (∀ h id, ∃ described, artist (client b) h id = Body described) →
  has_albums (client b) →
  (∀ h id, albumTracks (client b) h id = Body [] ∨
           ∃ e, albumTracks (client b) h id = Failed e) →
  ∃ (w' : World) (log : list Call),
    CollectTracks b artists w =
      (Val (sortArtists artists, (replicate (length artists) None, None)), w') ∧
    calls w' = calls w ++ log ∧
    length (trackRequests log) = length artists.
Proof.
  intros Hlimit Hdetail Halbums Hnone. unfold CollectTracks, make.
  rewrite decide_False by lia.
  rewrite run_bind, run_ret, Nat2Z.id, run_bind.
  change (@inhabitant (option Track) _) with (@None Track).
  edestruct (collectLoop_with_albums (sortArtists artists) Hdetail Halbums 0
               (mkCollectState "" [] (replicate (length artists) None)) w)
    as (st' & w' & log & -> & Hcalls & _ & _ & Htr & _ & Hslots); [done|..].
  { cbn [slots]. by rewrite length_replicate, sortArtists_perm. }
  rewrite run_ret, (Hslots Hnone). exists w', log. cbn [slots].
  rewrite sortArtists_perm in Htr. done.
Qed.
End collect_more.

(** X6 on the service whose album requests fail. *)
Lemma CollectTracks_without_albums_witness :
  ∃ w', CollectTracks demo5.albums_fail demo.favorites (demo.start [7]) =
          (Val (sortArtists demo.favorites, ([None; None; None], None)), w') ∧
        tape w' = [7].
Proof.
  destruct (CollectTracks_without_albums demo5.albums_fail demo.favorites (demo.start [7]))
    as (w' & log & Hrun & _ & _ & _ & _ & Htape).
  - by vm_compute.
  - intros h id. by eexists.
  - intros h id. right. by eexists.
  - by exists w'.
Defined.

(** X7 on the service whose track requests fail. *)
Lemma CollectTracks_without_tracks_witness :
  ∃ w', CollectTracks demo.tracks_fail demo.favorites (demo.start [7]) =
          (Val (sortArtists demo.favorites, ([None; None; None], None)), w').
Proof.
  destruct (CollectTracks_without_tracks demo.tracks_fail demo.favorites (demo.start [7]))
    as (w' & log & Hrun & _).
  - by vm_compute.
  - intros h id. by eexists.
  - intros h id. eexists. by split.
  - intros h id. right. by eexists.
  - by exists w'.
Defined.

(** ** One request for the albums of an artist *)

Global Instance id_le_trans : Transitive id_le.
Proof. intros x y z. apply (artist_le_trans (mkArtistID x) (mkArtistID y) (mkArtistID z)). Qed.

Lemma id_le_antisym (x y : string) : id_le x y → id_le y x → x = y.
Proof.
  intros Hxy Hyx.
  by injection (artist_le_antisym (mkArtistID x) (mkArtistID y) Hxy Hyx).
Qed.

(** Along ascending identifiers, none of them empty, the albums are asked
    for once for each identifier that is not the one before. *)
Lemma fetched_sorted (ids : list string) :
  Forall (λ id, id ≠ "") ids →
  ∀ prev, StronglySorted id_le (prev :: ids) →
    NoDup (fetched prev ids) ∧
    (∀ id, id ∈ fetched prev ids → id ∈ ids ∧ id ≠ prev) ∧
    (∀ id, id ∈ ids → id ∈ fetched prev ids ∨ id = prev).
Proof.
  induction 1 as [|a ids Ha _ IH]; intros prev Hsorted.
  - split; [constructor|]. split; [by intros ? ?%elem_of_nil|by intros ? ?%elem_of_nil].
  - apply StronglySorted_inv in Hsorted as [Htail Hprev].
    apply Forall_cons in Hprev as [Hpa Hprev].
    destruct (IH a Htail) as (Hnodup & Hin & Hall).
    apply StronglySorted_inv in Htail as [_ Ha_le].
    cbn [fetched]. destruct (decide (prev = "" ∨ prev ≠ a)) as [Hfetch|Hkept].
    + assert (Hne : prev ≠ a) by (destruct Hfetch as [->|]; [by intros <-|done]).
      simpl. split; [|split].
      * constructor; [|done]. by intros [_ []]%Hin.
      * intros id [->|Hid]%elem_of_cons; [split; [by left|done]|].
        destruct (Hin id Hid) as [Hids _]. split; [by right|]. intros ->.
        apply Hne, id_le_antisym; [done|].
        rewrite Forall_forall in Ha_le. by apply Ha_le.
      * intros id [->|Hid]%elem_of_cons; [left; by left|].
        destruct (Hall id Hid) as [?| ->]; left; [by right|by left].
    + assert (prev = a) as -> by (destruct (decide (prev = a)); tauto).
      simpl. split; [done|]. split.
      * intros id Hid. destruct (Hin id Hid). split; [by right|done].
      * intros id [->|Hid]%elem_of_cons; [by right|]. by apply Hall.
Qed.

Lemma empty_id_least (ids : list string) : Forall (id_le "") ids.
Proof. apply Forall_forall. intros [|c id] _; by unfold id_le. Qed.

Section economy.
Variable b : Builder.
Context `{!Allocation ArtistID, !Allocation (option Track)}.

(** X8. When the runtime allocates the slots, on a service that describes
    every artist under the identifier asked for and lists albums for
    every artist, [CollectTracks] asks for
    the detail of the artist at every slot, in sorted order, and for the
    tracks of one album at every slot, but, the identifiers not being
    empty, for the albums only once for each artist sampled: the sort
    brings the slots of an artist together. *)
Theorem CollectTracks_albums_once (artists : list ArtistID) (w : World) :
  (Z.of_nat (length artists) ≤ maxLen (option Track))%Z →
  echoes (client b) → has_albums (client b) →
  Forall (λ a, ArtistID_ID a ≠ "") artists →
  ∃ out (w' : World) (log : list Call),
    CollectTracks b artists w = (Val out, w') ∧ calls w' = calls w ++ log ∧
    detailRequests log = ArtistID_ID <$> sortArtists artists ∧
    length (trackRequests log) = length artists ∧
    NoDup (albumRequests log) ∧
    ∀ id, id ∈ albumRequests log ↔ id ∈ ArtistID_ID <$> artists.
Proof.
  intros Hlimit Hecho Halbums Hids.
  assert (Hdetail : ∀ h id, ∃ described, artist (client b) h id = Body described).
  { intros h id. destruct (Hecho h id) as [name ->]. by eexists. }
  unfold CollectTracks, make. rewrite decide_False by lia.
  rewrite run_bind, run_ret, Nat2Z.id, run_bind.
  change (@inhabitant (option Track) _) with (@None Track).
  edestruct (collectLoop_with_albums b (sortArtists artists) Hdetail Halbums 0
               (mkCollectState "" [] (replicate (length artists) None)) w)
    as (st' & w' & log & -> & Hcalls & _ & Hdet & Htr & Halb & _); [done|..].
  { cbn [slots]. by rewrite length_replicate, sortArtists_perm. }
  rewrite run_ret. eexists _, w', log. split; [reflexivity|]. split; [done|].
  split; [done|]. split; [by rewrite Htr, sortArtists_perm|].
  rewrite (Halb Hecho). cbn [lastArtist].
  destruct (fetched_sorted (ArtistID_ID <$> sortArtists artists)) with (prev := "")
    as (Hnodup & Hin & Hall).
  - apply Forall_fmap. by rewrite sortArtists_perm.
  - constructor; [|apply empty_id_least].
    apply Sorted_StronglySorted; [apply _|].
    apply (Sorted_fmap _ artist_le); [done|apply sortArtists_sorted].
  - split; [done|]. intros id. rewrite <- (sortArtists_perm artists) at 2. split.
    + by intros [? _]%Hin.
    + intros Hid. destruct (Hall id Hid) as [?| ->]; [done|].
      apply list_elem_of_fmap in Hid as (a & Ha & Hmem).
      rewrite sortArtists_perm in Hmem. rewrite Forall_forall in Hids.
      by destruct (Hids a Hmem).
Qed.
End economy.

Lemma demo_echoes : echoes demo.service.
Proof. intros h id. by eexists. Qed.

Lemma demo_has_albums : has_albums demo.service.
Proof. intros h id. by eexists. Qed.

(** X8 on [a1], [B2], [a1]: three requests for a detail, two for albums. *)
Lemma CollectTracks_albums_once_witness :
  ∃ out w',
    CollectTracks demo.plain demo3.drawn (demo.start []) = (Val out, w') ∧
    detailRequests (calls w') = ["B2"; "a1"; "a1"] ∧
    length (trackRequests (calls w')) = 3 ∧
    NoDup (albumRequests (calls w')) ∧
    ∀ id, id ∈ albumRequests (calls w') ↔ id ∈ ["a1"; "B2"; "a1"].
Proof.
  destruct (CollectTracks_albums_once demo.plain demo3.drawn (demo.start []))
    as (out & w' & log & Hrun & Hcalls & Hdetail & Htracks & Hnodup & Halbums).
  - by vm_compute.
  - apply demo_echoes.
  - apply demo_has_albums.
  - by repeat constructor.
  - exists out, w'. rewrite Hcalls. split; [exact Hrun|]. split; [exact Hdetail|].
    split; [exact Htracks|]. split; [exact Hnodup|exact Halbums].
Defined.

(** ** The run as a whole *)

Section run.
Variable ToLower : string → string.
Variable b : Builder.
Context `{!Allocation ArtistID, !Allocation (option Track)}.

(** What the first half of [BuildPlaylist] ends with: one of three errors,
    the last of them for a count of 0 only; or the final track list, which
    holds the tracks of the slots that [CollectTracks] filled for the
    artists drawn from the filtered favorites; or a panic. *)
Lemma gather_outcome (w : World) :
  ∃ (out : outcome (error + list Track)) (w' : World) (log : list Call),
    gather ToLower b w = (out, w') ∧ calls w' = calls w ++ log ∧ reads log ∧
    match out with
    | Val (inl e) =>
        (∃ e0, favoriteArtists (client b) (calls w) = Failed e0 ∧
               e = wrap "failed to fetch favorite artists" e0 ∧
               log = [CallGetFavoriteArtists]) ∨
        e = "no artists remaining after filtering" ∨
        e = "no tracks collected from artists" ∧ Count (Playlist_ (config b)) = 0%Z
    | Val (inr finalTracks) =>
        (1 ≤ Count (Playlist_ (config b)))%Z ∧
        (Z.of_nat (length finalTracks) ≤ Count (Playlist_ (config b)))%Z ∧
        ∃ artists,
          favoriteArtists (client b) (calls w) = Body artists ∧
          (∀ t, t ∈ finalTracks →
                ∃ a, a ∈ artists ∧ passes ToLower (config b) a ∧
                     track_of (client b) a t) ∧
          ∃ w0 sorted tracks w1,
            calls w0 = calls w ++ [CallGetFavoriteArtists] ∧
            tape w0 = drop (Z.to_nat (Count (Playlist_ (config b)))) (tape w) ∧
            CollectTracks b
              (picks (FilterArtists ToLower b artists)
                     (Z.to_nat (Count (Playlist_ (config b)))) (tape w)) w0 =
              (Val (sorted, (tracks, None)), w1) ∧
            calls w' = calls w1 ∧
            finalTracks = omap id tracks
    | Panic p =>
        p = NilDereference ∨
        p = MakesliceLen ∧
        (Count (Playlist_ (config b)) < 0 ∨
         maxLen ArtistID < Count (Playlist_ (config b)) ∨
         maxLen (option Track) < Count (Playlist_ (config b)))%Z
    end.
Proof.
  unfold gather. mstep. unfold GetFavoriteArtists. rewrite run_bind. mstep.
  destruct (favoriteArtists (client b) (calls w)) as [artists|e] eqn:Hfav.
  2:{ rewrite run_ret. cbv beta iota. rewrite run_ret.
      eexists _, _, [_]. split; [reflexivity|]. cbn [calls].
      split; [done|]. split; [by repeat constructor|]. left. by exists e. }
  rewrite run_ret. cbv beta iota zeta. do 2 mstep.
  set (filtered := FilterArtists ToLower b artists). case_decide as Hempty.
  { rewrite run_ret. eexists _, _, [_]. split; [reflexivity|]. cbn [calls tape].
    split; [done|]. split; [by repeat constructor|]. right. by left. }
  assert (Hne : filtered ≠ []) by (by destruct filtered).
  rewrite run_bind.
  destruct (decide (Count (Playlist_ (config b)) < 0 ∨
                    maxLen ArtistID < Count (Playlist_ (config b)))%Z) as [Hneg|Hpos].
  { rewrite selectRandomItems_refused by done.
    eexists _, _, [_]. split; [reflexivity|]. cbn [calls].
    split; [done|]. split; [by repeat constructor|]. right. split; [done|lia]. }
  rewrite selectRandomItems_run by (done || lia). cbn [tape calls stdout]. mstep.
  rewrite run_bind.
  set (selected := picks filtered (Z.to_nat (Count (Playlist_ (config b)))) (tape w)).
  assert (Hselected : ∀ a, a ∈ selected → a ∈ artists ∧ passes ToLower (config b) a).
  { intros a Ha%picks_from_source; [|done]. unfold filtered in Ha.
    rewrite FilterArtists_filter in Ha. by apply list_elem_of_filter in Ha as [? ?]. }
  assert (Hpicks : length selected = Z.to_nat (Count (Playlist_ (config b))))
    by apply length_picks.
  match goal with |- context [CollectTracks b selected ?w0] =>
    set (start := w0);
    destruct (CollectTracks_spec b selected start)
      as (out & w1 & log & Hrun & Hw1 & Hlog & Hout & _)
  end.
  rewrite Hrun. unfold start in Hw1. cbn [calls] in Hw1. rewrite <- app_assoc in Hw1.
  destruct out as [[sorted [tracks err]]|p].
  2:{ eexists _, _, (_ :: log). split; [reflexivity|].
      split; [done|]. split; [by constructor|].
      destruct Hout as [->|[-> Hlimit]]; [by left|right].
      split; [done|]. rewrite Hpicks in Hlimit. lia. }
  destruct Hout as (-> & -> & Hlen & Htracks). mstep. case_decide as Hzero.
  { rewrite run_ret. eexists _, _, (_ :: log). split; [reflexivity|]. cbn [calls].
    split; [done|]. split; [by constructor|]. right. right. split; [done|]. lia. }
  cbv zeta. mstep. rewrite run_ret.
  eexists _, _, (_ :: log). split; [reflexivity|]. cbn [calls].
  split; [done|]. split; [by constructor|].
  split; [lia|]. split; [pose proof (length_compact tracks); lia|].
  exists artists. split; [done|]. split.
  - intros t Ht. rewrite compact_omap in Ht.
    apply list_elem_of_omap in Ht as ([t'|] & Hslot & [= ->]).
    apply list_elem_of_lookup in Hslot as [j Hj].
    destruct (Htracks j t Hj) as (a & Ha & Htrack).
    apply list_elem_of_lookup_2 in Ha. rewrite sortArtists_perm in Ha.
    destruct (Hselected a Ha). by exists a.
  - exists start, (sortArtists selected), tracks, w1.
    split; [done|]. split; [done|]. split; [exact Hrun|].
    split; [done|]. apply compact_omap.
Qed.

(** The second half of a real run: the upsert of the identifiers of the
    final tracks, and its error wrapped. *)
Lemma deliver_upsert (playlistName : string) (finalTracks : list Track) (w : World) :
  let existing := filter (λ p, GetTitle p = playlistName) (listed (client b) (calls w)) in
  ∃ (err : option error) (w' : World) (log : list Call) (id : string),
    deliver b playlistName false finalTracks w = (Val err, w') ∧
    calls w' = calls w ++ log ∧
    log `prefix_of` upsert_calls existing playlistName "Generated by tidal-playlist" id
                      (Track_ID <$> finalTracks) ∧
    match err with
    | None => log = upsert_calls existing playlistName "Generated by tidal-playlist" id
                      (Track_ID <$> finalTracks)
    | Some e => ∃ e1, e = wrap "failed to create/update playlist" e1
    end ∧
    (upsert_succeeds (client b) → err = None).
Proof.
  intros existing. unfold deliver. cbv zeta. mstep. rewrite run_bind.
  edestruct (CreateOrUpdatePlaylist_run (client b) playlistName)
    as ([playlist err] & log & out & id & -> & Hpre & Hsome & Hok).
  cbn [calls] in *. fold existing in Hpre, Hsome. destruct err as [e|].
  { rewrite run_ret. eexists _, _, log, id. split; [reflexivity|].
    split; [done|]. split; [done|]. split; [by eexists|].
    intros Hs. by specialize (Hok Hs). }
  destruct (Hsome eq_refl) as (pl & Hpl & _ & Hlog). simpl in Hpl. subst playlist.
  simpl deref. do 2 mstep. rewrite run_ret.
  eexists _, _, log, id. split; [reflexivity|]. done.
Qed.
Lemma written_reads (log : list Call) : reads log → written log = [].
Proof.
  induction 1 as [|call log Hcall _ IH]; [done|].
  destruct call; try discriminate Hcall; exact IH.
Qed.

(** How a run of [BuildPlaylist] can end. *)
Lemma BuildPlaylist_outcome (playlistName : string) (dryRun : bool) (w : World) :
  ∃ (out : outcome (option error)) (w' : World) (log : list Call),
    BuildPlaylist ToLower b playlistName dryRun w = (out, w') ∧
    calls w' = calls w ++ log ∧
    (dryRun = true → reads log) ∧
    match out with
    | Val None => True
    | Val (Some e) =>
        reads log ∧
        ((∃ e0, e = wrap "failed to fetch favorite artists" e0) ∨
         e = "no artists remaining after filtering" ∨
         e = "no tracks collected from artists" ∧ Count (Playlist_ (config b)) = 0%Z) ∨
        dryRun = false ∧ ∃ e1, e = wrap "failed to create/update playlist" e1
    | Panic p =>
        reads log ∧
        (p = NilDereference ∨
         p = MakesliceLen ∧
         (Count (Playlist_ (config b)) < 0 ∨
          maxLen ArtistID < Count (Playlist_ (config b)) ∨
          maxLen (option Track) < Count (Playlist_ (config b)))%Z)
    end.
Proof.
  rewrite BuildPlaylist_stages, run_bind.
  destruct (gather_outcome w) as (out & w1 & log1 & -> & Hcalls1 & Hreads1 & Hout).
  destruct out as [[e|finalTracks]|p].
  - rewrite run_ret. eexists _, w1, log1. split; [reflexivity|]. split; [done|].
    split; [done|]. left. split; [done|].
    destruct Hout as [(e0 & _ & -> & _)|[->|[-> ?]]]; [left; by eexists|by right; left|].
    by right; right.
  - destruct dryRun.
    + rewrite deliver_dry_run. eexists _, _, log1. split; [reflexivity|]. done.
    + destruct (deliver_upsert playlistName finalTracks w1)
        as (err & w' & log2 & id & -> & Hcalls2 & _ & Herr & _).
      eexists _, w', (log1 ++ log2). split; [reflexivity|].
      rewrite Hcalls2, Hcalls1, <- app_assoc. split; [done|]. split; [done|].
      destruct err as [e|]; [|done]. right. by split.
  - eexists _, w1, log1. split; [reflexivity|]. done.
Qed.

(** X9. A run of [BuildPlaylist] that returns an error has sent reads
    only, unless the error is the wrapped failure of the upsert, which a
    dry run never returns: the failed fetch of the favorites, the empty
    filtered list and the empty collection are reported before anything
    is deleted, created or written. The empty collection is reported for
    a count of 0 only. A panic comes before any mutation too, and is the
    nil dereference of the artist detail or the [make] that refuses the
    count: a negative one, or one above the longest slice the runtime
    allocates for the sampled artists or for the slots. *)
Theorem BuildPlaylist_failures (playlistName : string) (dryRun : bool) (w : World) :
  ∃ (out : outcome (option error)) (w' : World) (log : list Call),
    BuildPlaylist ToLower b playlistName dryRun w = (out, w') ∧
    calls w' = calls w ++ log ∧
    (∀ e, out = Val (Some e) →
       Forall (λ call, is_mutation call = false) log ∧
       ((∃ e0, e = wrap "failed to fetch favorite artists" e0) ∨
        e = "no artists remaining after filtering" ∨
        e = "no tracks collected from artists" ∧ Count (Playlist_ (config b)) = 0%Z) ∨
       dryRun = false ∧ ∃ e1, e = wrap "failed to create/update playlist" e1) ∧
    (∀ p, out = Panic p →
       Forall (λ call, is_mutation call = false) log ∧
       (p = NilDereference ∨
        p = MakesliceLen ∧
        (Count (Playlist_ (config b)) < 0 ∨
         maxLen ArtistID < Count (Playlist_ (config b)) ∨
         maxLen (option Track) < Count (Playlist_ (config b)))%Z)).
Proof.
  destruct (BuildPlaylist_outcome playlistName dryRun w)
    as (out & w' & log & Hrun & Hcalls & _ & Hout).
  exists out, w', log. split; [done|]. split; [done|].
  split; [intros e ->|intros p ->]; exact Hout.
Qed.

(** X10. A real run of [BuildPlaylist] that returns no error has written,
    to one new playlist of the name asked for and the description of the
    program, the identifiers of the collected tracks: of the tracks in
    the slots that [CollectTracks] returned for the artists drawn from
    the filtered favorites, in the order of the slots, the empty slots
    left out. There are at most as many as the count, and each is a track
    of a favorite artist that passes the filters. *)
Theorem BuildPlaylist_writes_collected (playlistName : string) (w : World) :
  ∃ (out : outcome (option error)) (w' : World) (log : list Call),
    BuildPlaylist ToLower b playlistName false w = (out, w') ∧
    calls w' = calls w ++ log ∧
    (out = Val None →
     ∃ artists w0 sorted slots w1,
       favoriteArtists (client b) (calls w) = Body artists ∧
       calls w0 = calls w ++ [CallGetFavoriteArtists] ∧
       tape w0 = drop (Z.to_nat (Count (Playlist_ (config b)))) (tape w) ∧
       CollectTracks b
         (picks (FilterArtists ToLower b artists)
                (Z.to_nat (Count (Playlist_ (config b)))) (tape w)) w0 =
         (Val (sorted, (slots, None)), w1) ∧
       mjoin (written log) = Track_ID <$> omap id slots ∧
       (Z.of_nat (length (omap id slots)) ≤ Count (Playlist_ (config b)))%Z ∧
       (∀ t, t ∈ omap id slots →
          ∃ a, a ∈ artists ∧ passes ToLower (config b) a ∧ track_of (client b) a t) ∧
       CallCreatePlaylist playlistName "Generated by tidal-playlist" ∈ log).
Proof.
  rewrite BuildPlaylist_stages, run_bind.
  destruct (gather_outcome w) as (out & w1 & log1 & -> & Hcalls1 & Hreads1 & Hout).
  destruct out as [[e|finalTracks]|p].
  - rewrite run_ret. by eexists _, w1, log1.
  - destruct (deliver_upsert playlistName finalTracks w1)
      as (err & w' & log2 & id & -> & Hcalls2 & _ & Herr & _).
    eexists _, w', (log1 ++ log2). split; [reflexivity|].
    rewrite Hcalls2, Hcalls1, <- app_assoc. split; [done|].
    intros [= ->].
    destruct Hout as (_ & Hlen & artists & Hfav & Htracks & w0 & sorted & slots & w2 &
                      Hcalls0 & Htape0 & Hrun & _ & ->).
    exists artists, w0, sorted, slots, w2. split; [done|]. split; [done|].
    split; [done|]. split; [done|].
    rewrite written_app, (written_reads _ Hreads1), app_nil_l, Herr.
    rewrite written_upsert_calls, join_batches.
    split; [done|]. split; [done|]. split; [done|].
    apply elem_of_app. right. unfold upsert_calls.
    apply elem_of_cons. right. apply elem_of_app. right. by left.
  - by eexists _, w1, log1.
Qed.
End run.

(** ** What the decoding leaves out *)

Lemma foldl_append_map {A B} (P : A → Prop) `{∀ x, Decision (P x)} (f : A → B)
    (l : list A) (acc : list B) :
  foldl (λ kept x, if decide (P x) then kept ++ [f x] else kept) acc l =
  acc ++ (f <$> filter P l).
Proof.
  revert acc. induction l as [|x l IH]; intros acc; simpl.
  - by rewrite app_nil_r.
  - rewrite IH. destruct (decide (P x)).
    + rewrite filter_cons_True by done. by rewrite <- app_assoc.
    + by rewrite filter_cons_False by done.
Qed.

Lemma tracksOfIncluded_artists (included : list Included) (t : Track) :
  t ∈ tracksOfIncluded included → Track_Artists t = [].
Proof.
  unfold tracksOfIncluded. rewrite foldl_append_map. simpl.
  by intros (item & -> & _)%list_elem_of_fmap.
Qed.

Lemma demo_decodes : decodes demo.service.
Proof.
  split; intros h id l [= <-].
  - by exists [mkIncluded ("album-" +:+ id) "albums" ("Album of " +:+ id)].
  - by exists [mkIncluded ("track-" +:+ id) "tracks" ("Track on " +:+ id)].
Qed.

Section blank.
Variable ToLower : string → string.
Variable b : Builder.
Context `{!Allocation ArtistID, !Allocation (option Track)}.

(** X11. The tracks that [GetAlbumTracks] decodes have an identifier and
    a title only, so that the preview of a dry run never shows the name of
    an artist: every line is the rank, an empty name and the title. *)
Theorem BuildPlaylist_preview_without_artists (playlistName : string) (w : World) :
  decodes (client b) →
  ∀ finalTracks w1,
    gather ToLower b w = (Val (inr finalTracks), w1) →
    ∃ w', BuildPlaylist ToLower b playlistName true w = (Val None, w') ∧
          stdout w' =
            stdout w1 ++
            [LF +:+ "=== DRY RUN MODE ===" +:+ LF;
             "Would create/update playlist '" +:+ playlistName +:+ "' with "
               +:+ fmt_int (length finalTracks) +:+ " tracks" +:+ LF;
             LF +:+ "Tracks:" +:+ LF] ++
            imap previewLineBlank (take 10 finalTracks) ++ ["  ..." +:+ LF].
Proof.
  intros [_ Hdecodes] finalTracks w1 Hgather.
  destruct (gather_outcome ToLower b w) as (out & w1' & log & Hrun & _ & _ & Hout).
  rewrite Hgather in Hrun. injection Hrun as <- <-.
  destruct Hout as (_ & _ & artists & _ & Htracks & _).
  rewrite BuildPlaylist_stages, run_bind, Hgather, deliver_dry_run.
  eexists. split; [reflexivity|]. cbn [stdout]. do 3 f_equal.
  unfold preview. apply imap_ext. intros i t Hi.
  assert (Ht : t ∈ finalTracks).
  { apply list_elem_of_lookup_2 in Hi. by apply subseteq_take in Hi. }
  destruct (Htracks t Ht)
    as (a & _ & _ & h1 & described & h2 & albums & album & h3 & tracks & _ & _ & _ & Hbody & Hin).
  destruct (Hdecodes _ _ _ Hbody) as [included ->].
  by rewrite (tracksOfIncluded_artists _ _ Hin).
Qed.
End blank.

(** X11 on the blacklist [b2] and a count of 2. *)
Lemma BuildPlaylist_preview_without_artists_witness :
  ∃ w',
    BuildPlaylist ascii_ToLower demo.without_b2 "Mix" true (demo.start [1; 0]) =
      (Val None, w') ∧
    drop 15 (stdout w') =
      ["  1.  - Track on album-C3" +:+ LF; "  2.  - Track on album-a1" +:+ LF;
       "  ..." +:+ LF].
Proof.
  edestruct (BuildPlaylist_preview_without_artists ascii_ToLower demo.without_b2 "Mix"
               (demo.start [1; 0]) demo_decodes) as (w' & Hrun & Hout);
    [vm_compute; reflexivity|].
  exists w'. split; [exact Hrun|]. rewrite Hout. vm_compute. reflexivity.
Defined.

(** ** The command [create] *)

Section create_more.
Variable ToLower : string → string.
Variable service : Remote.
Context `{!Allocation ArtistID, !Allocation (option Track)}.

Lemma Validate_count (cfg : Config) :
  Validate cfg = None → (1 ≤ Count (Playlist_ cfg))%Z.
Proof. unfold Validate. repeat case_decide; (done || lia). Qed.

Lemma overrideCount_count (cfg : Config) (count : Z) :
  (1 ≤ Count (Playlist_ cfg))%Z → (1 ≤ Count (Playlist_ (overrideCount cfg count)))%Z.
Proof. unfold overrideCount. case_decide; simpl; lia. Qed.

(** X12. The configuration is validated before the flag [--count] is
    looked at: with a count below 1 in the configuration the command
    fails with the error of the validation, whatever the flag is, and
    without a request or a line of output. *)
Theorem createRunE_validates_before_count (cfg : Config) (args : list string)
    (playlistName : string) (count : Z) (dryRun : bool) (w : World) :
  (Count (Playlist_ cfg) < 1)%Z →
  ∃ e, createRunE ToLower service (inr cfg) args playlistName count dryRun w =
         (Val (Some (wrap "invalid config" e)), w).
Proof.
  intros Hcount. unfold createRunE.
  destruct (Validate cfg) as [e|] eqn:Hvalid; [by exists e|].
  apply Validate_count in Hvalid. lia.
Qed.

(** X13. The command [create] runs the pipeline with a count of at least
    1, so that it never reports an empty collection: the test that would
    is dead when the command is used. It can only panic on the nil
    dereference of the artist detail and, when the count is above the
    longest slice the runtime allocates for the sampled artists or for
    the slots, in [make]. Its errors are those of the loading, of the
    validation and of the pipeline, each wrapped; a dry run sends reads
    only. *)
Theorem createRunE_outcome (loaded : error + Config) (args : list string)
    (playlistName : string) (count : Z) (dryRun : bool) (w : World) :
  ∃ (out : outcome (option error)) (w' : World) (log : list Call),
    createRunE ToLower service loaded args playlistName count dryRun w = (out, w') ∧
    calls w' = calls w ++ log ∧
    (∀ p, out = Panic p →
       p = NilDereference ∨
       p = MakesliceLen ∧
       ∃ cfg, loaded = inr cfg ∧
         (maxLen ArtistID < Count (Playlist_ (overrideCount cfg count)) ∨
          maxLen (option Track) < Count (Playlist_ (overrideCount cfg count)))%Z) ∧
    (∀ e, out = Val (Some e) →
       ∃ e', e = wrap "failed to load config" e' ∨ e = wrap "invalid config" e' ∨
             e = wrap "failed to build playlist" e') ∧
    out ≠ Val (Some (wrap "failed to build playlist" "no tracks collected from artists")) ∧
    (dryRun = true → Forall (λ call, is_mutation call = false) log).
Proof.
  unfold createRunE. destruct loaded as [e|cfg].
  { rewrite run_ret. exists (Val (Some (wrap "failed to load config" e))), w, [].
    rewrite app_nil_r. split; [done|]. split; [done|]. split; [done|].
    split; [intros ? [= <-]; exists e; by left|]. split; [|by constructor].
    by intros [= ?]. }
  destruct (Validate cfg) as [e|] eqn:Hvalid.
  { rewrite run_ret. exists (Val (Some (wrap "invalid config" e))), w, [].
    rewrite app_nil_r. split; [done|]. split; [done|]. split; [done|].
    split; [intros ? [= <-]; exists e; right; by left|]. split; [|by constructor].
    by intros [= ?]. }
  cbv zeta. rewrite run_bind.
  assert (Hcount : (1 ≤ Count (Playlist_ (overrideCount cfg count)))%Z)
    by by apply overrideCount_count, Validate_count.
  set (cfg' := overrideCount cfg count) in *.
  destruct (BuildPlaylist_outcome ToLower (mkBuilder service cfg')
              (playlistNameOf cfg' args playlistName) dryRun w)
    as (out & w' & log & -> & Hcalls & Hdry & Hout).
  cbn [config] in Hout. destruct out as [[e|]|p].
  - rewrite run_ret. eexists _, w', log. split; [reflexivity|]. split; [done|].
    split; [done|]. split; [intros ? [= <-]; exists e; right; by right|].
    split; [|done]. intros [= Heq].
    change (e = "no tracks collected from artists") in Heq. subst e.
    destruct Hout as [[_ [[e0 He0]|[He|[_ He]]]]|[_ [e1 He1]]];
      [discriminate He0|discriminate He|lia|discriminate He1].
  - rewrite run_ret. eexists _, w', log. split; [reflexivity|]. done.
  - eexists _, w', log. split; [reflexivity|]. split; [done|].
    split; [|done]. intros ? [= <-]. destruct Hout as [_ [->|[-> Hlimit]]]; [by left|].
    right. split; [done|]. exists cfg. split; [done|]. fold cfg'. lia.
Qed.
End create_more.

(** X12 on a configuration without a count and the flag [--count 10]. *)
Lemma createRunE_validates_before_count_witness :
  ∃ e, createRunE ascii_ToLower demo.service (inr demo4.no_count) ["Mix"] "" 10 false
         (demo.start []) =
         (Val (Some (wrap "invalid config" e)), demo.start []).
Proof. apply createRunE_validates_before_count. reflexivity. Defined.

(** The flag [--count 4611686018427387904] passes the validation and
    makes the command panic in [make], after the favorites are fetched. *)
Lemma createRunE_count_refused :
  createRunE ascii_ToLower demo.service (inr demo.plain.(config)) ["Mix"] "" (2 ^ 62) false
      (demo.start []) =
    (Panic MakesliceLen,
     mkWorld [] [CallGetFavoriteArtists]
       ["Fetching favorite artists..." +:+ LF +:+ LF;
        "Found 3 favorite artists" +:+ LF; "After filtering: 3 artists" +:+ LF]).
Proof. vm_compute. reflexivity. Qed.

(** ** The pages of the favorites *)

Module paging_facts.
Import paging.

Section pages.
Variable srv : Service.
Variable userID : string.

(** The loop returns the artists of the pages served, in order, after
    one request per page; [fuel] only has to cover the pages. *)
Lemma pages_served (h : list Request) (cursor : string) (ps : list Page) :
  served srv userID h cursor ps →
  ∀ fuel allArtists,
    length ps ≤ fuel →
    pages srv userID fuel cursor allArtists h =
      Some ((allArtists ++ mjoin (Data <$> ps), None),
            h ++ (ArtistsPage userID <$> cursor :: (NextCursor <$> take (length ps - 1) ps))).
Proof.
  induction 1 as [h cursor page Hpage Hlast|h cursor page rest Hpage Hnext Hrest IH];
    intros [|fuel] allArtists Hfuel; simpl in Hfuel; try lia.
  - simpl. rewrite Hpage, decide_True by done. by rewrite app_nil_r.
  - cbn [pages]. rewrite Hpage, decide_False by done. cbv zeta.
    rewrite IH by lia. rewrite <- !app_assoc. do 3 f_equal.
    destruct rest as [|page' rest]; [by inversion Hrest|].
    cbn [length]. rewrite !Nat.sub_succ, !Nat.sub_0_r. reflexivity.
Qed.

(** Whatever the service does, an error of the loop comes with no artist. *)
Lemma pages_error (fuel : nat) :
  ∀ cursor allArtists h out,
    pages srv userID fuel cursor allArtists h = Some out →
    out.1.2 ≠ None → out.1.1 = [].
Proof.
  induction fuel as [|fuel IH]; intros cursor allArtists h out; simpl; [done|].
  destruct (artistsPage srv h userID cursor) as [page|e].
  - case_decide; [by intros [= <-]|apply IH].
  - by intros [= <-].
Qed.

(** Against cursors that never end the loop never returns. *)
Lemma pages_endless (fuel : nat) :
  (∀ h cursor, ∃ page, artistsPage srv h userID cursor = Body page ∧
                       NextCursor page ≠ "") →
  ∀ cursor allArtists h, pages srv userID fuel cursor allArtists h = None.
Proof.
  intros Hnext. induction fuel as [|fuel IH]; intros cursor allArtists h; simpl; [done|].
  destruct (Hnext h cursor) as (page & -> & Hne). by rewrite decide_False.
Qed.
End pages.

(** X14. When the service knows the user and serves the pages of the
    collection down to one without a next cursor, [GetFavoriteArtists]
    returns the artists of all the pages in the order served, after the
    request for the user and one request per page: the first without
    cursor, each other with the next cursor of the page before. *)
Theorem GetFavoriteArtists_all_pages (srv : Service) (h : list Request)
    (userID body : string) (ps : list Page) (fuel : nat) :
  usersMe srv h = Body (userID, body) → userID ≠ "" →
  served srv userID (h ++ [UsersMe]) "" ps →
  length ps ≤ fuel →
  GetFavoriteArtists srv fuel h =
    Some ((mjoin (Data <$> ps), None),
          h ++ UsersMe :: (ArtistsPage userID <$> cursors ps)).
Proof.
  intros Hme Hid Hserved Hfuel. unfold GetFavoriteArtists, GetUserID.
  rewrite Hme, decide_False by done.
  rewrite (pages_served srv userID _ _ _ Hserved) by done.
  by rewrite <- app_assoc.
Qed.

(** X15. When [GetFavoriteArtists] returns an error it returns no artist:
    a page that fails costs the artists of the pages fetched before it. *)
Theorem GetFavoriteArtists_error_drops_pages (srv : Service) (fuel : nat)
    (h h' : list Request) (artists : list ArtistID) (e : error) :
  GetFavoriteArtists srv fuel h = Some ((artists, Some e), h') → artists = [].
Proof.
  unfold GetFavoriteArtists. destruct (GetUserID srv h) as [[userID [e0|]] h0].
  - by intros [= <- _ _].
  - intros Hpages. by apply pages_error in Hpages.
Qed.

(** X16. The loop of [GetFavoriteArtists] has no bound on the pages: when
    every page names a next cursor it is still running after any number
    of rounds. *)
Theorem GetFavoriteArtists_endless (srv : Service) (h : list Request)
    (userID body : string) (fuel : nat) :
  usersMe srv h = Body (userID, body) → userID ≠ "" →
  (∀ h cursor, ∃ page, artistsPage srv h userID cursor = Body page ∧
                       NextCursor page ≠ "") →
  GetFavoriteArtists srv fuel h = None.
Proof.
  intros Hme Hid Hnext. unfold GetFavoriteArtists, GetUserID.
  rewrite Hme, decide_False by done. by apply pages_endless.
Qed.

(** X14 on three pages, the second of them empty. *)
Lemma GetFavoriteArtists_all_pages_witness :
  GetFavoriteArtists three_pages 3 [] =
    Some (([mkArtistID "B2"; mkArtistID "a1"; mkArtistID "C3"], None),
          [UsersMe; ArtistsPage "u1" ""; ArtistsPage "u1" "c1"; ArtistsPage "u1" "c2"]).
Proof.
  apply (GetFavoriteArtists_all_pages three_pages [] "u1" "{}"
           [mkPage [mkArtistID "B2"; mkArtistID "a1"] "c1"; mkPage [] "c2";
            mkPage [mkArtistID "C3"] ""]); [done|done| |simpl; lia].
  apply served_next; [done|done|]. apply served_next; [done|done|].
  by apply served_last.
Defined.

(** X15 on a third page that fails. *)
Lemma GetFavoriteArtists_error_drops_pages_witness :
  ∃ e h',
    GetFavoriteArtists broken_third_page 5 [] = Some (([], Some e), h') ∧
    length h' = 4.
Proof.
  destruct (GetFavoriteArtists broken_third_page 5 []) as [[[artists [e|]] h']|] eqn:Hrun;
    try discriminate Hrun.
  pose proof (GetFavoriteArtists_error_drops_pages _ _ _ _ _ _ Hrun) as ->.
  exists e, h'. split; [reflexivity|]. vm_compute in Hrun. by simplify_eq.
Defined.

(** X16 on a service that always names a next page. *)
Lemma GetFavoriteArtists_endless_witness :
  GetFavoriteArtists endless 1000 [] = None.
Proof.
  apply (GetFavoriteArtists_endless endless [] "u1" "{}"); [done|done|].
  intros h cursor. eexists. split; [reflexivity|]. simpl. by destruct cursor.
Defined.
End paging_facts.

(** ** The token of the [AuthManager] *)

Module auth_facts.
Import auth.

Ltac run_auth :=
  unfold GetValidToken, LoadToken, RefreshToken, LoginWithClientCredentials,
    SaveToken, ReadFile, ask, Now, mbind, A_bind, mret, A_ret in *;
  cbn [file clock sent fst snd] in *.

Section manager.
Variable env : Env.

(** A successful [SaveToken] leaves the token in the file. *)
Lemma SaveToken_stored (token : Token) (w w' : World) :
  SaveToken env token w = (None, w') →
  w' = mkWorld (Stored token) (clock w) (sent w).
Proof.
  unfold SaveToken. destruct (save env (file w) token) as [[err remains]|]; by intros [= <-].
Qed.

(** A successful login has asked for the credentials once, has stored
    its token, and the token has no refresh token. *)
Lemma LoginWithClientCredentials_stored (w w' : World) (t : Token) (e : option error) :
  LoginWithClientCredentials env w = ((Some t, e), w') →
  file w' = Stored t ∧ RefreshToken_ t = "" ∧ sent w' = sent w ++ [PostCredentials].
Proof.
  run_auth. destruct (credentials env (sent w)) as [[StatusCode [tokenResp|err]]|err];
    repeat case_decide; try by intros [= <-].
  destruct (save env _ _) as [[err remains]|]; [by intros [=]|].
  by intros [= <- _ <-].
Qed.

(** A login adds one call at most, whatever its end. *)
Lemma LoginWithClientCredentials_sent (w w' : World) (r : option Token * option error) :
  LoginWithClientCredentials env w = (r, w') →
  sent w' = sent w ++ [PostCredentials].
Proof.
  run_auth. destruct (credentials env (sent w)) as [[StatusCode [tokenResp|err]]|err];
    repeat case_decide; try by intros [= _ <-].
  destruct (save env _ _) as [[err remains]|]; by intros [= _ <-].
Qed.

(** A successful [RefreshToken] has made one call and stored its token. *)
Lemma RefreshToken_stored (token t : Token) (w w' : World) (e : option error) :
  RefreshToken env token w = ((Some t, e), w') →
  file w' = Stored t ∧ ∃ call, sent w' = sent w ++ [call].
Proof.
  unfold RefreshToken. case_decide as Hrefresh.
  - intros (? & ? & ?)%LoginWithClientCredentials_stored. eauto.
  - run_auth. destruct (tokenSource env (sent w) token) as [newToken|err]; [|by intros [=]].
    destruct (save env _ _) as [[err remains]|]; [by intros [=]|].
    intros [= <- _ <-]. eauto.
Qed.

(** A successful [LoadToken] leaves in the file the token it returns. *)
Lemma LoadToken_stored (t : Token) (w w' : World) (e : option error) :
  LoadToken env w = ((Some t, e), w') →
  file w' = Stored t ∧
  (sent w' = sent w → w' = mkWorld (file w) (tl (clock w)) (sent w) ∧
                      ¬ ((Expiry t < hd 0%Z (clock w))%Z ∧ RefreshToken_ t ≠ "")).
Proof.
  unfold LoadToken, ReadFile, Now, mbind, A_bind, mret, A_ret.
  destruct (file w) as [err|err|token] eqn:Hfile; try by intros [=].
  case_decide as Hexpired.
  - intros (Hstored & call & Hsent)%RefreshToken_stored. split; [done|].
    cbn [sent] in Hsent. intros Heq. rewrite Heq in Hsent.
    apply (f_equal length) in Hsent. rewrite length_app in Hsent. simpl in Hsent. lia.
  - intros [= <- _ <-]. by rewrite Hfile.
Qed.
End manager.

(** X17. The token [GetValidToken] returns is the one the token file
    holds when it returns: a token that was refreshed or obtained by a
    login has been saved first. *)
Theorem GetValidToken_stored (env : Env) (w w' : World) (t : Token) (e : option error) :
  GetValidToken env w = ((Some t, e), w') → file w' = Stored t.
Proof.
  unfold GetValidToken. unfold mbind at 1, A_bind at 1.
  destruct (LoadToken env w) as [[token err] w1] eqn:Hload.
  destruct err as [err|]; [by intros [=]|].
  destruct token as [token|]; [|by intros [=]].
  apply LoadToken_stored in Hload as [Hstored _].
  unfold Now, mbind, A_bind, mret, A_ret. case_decide.
  - by intros [? _]%RefreshToken_stored.
  - by intros [= <- _ <-].
Qed.

(** X18. [GetValidToken] returns the stored token as it is, with no call
    and the file untouched, exactly when the token has a minute or more
    to live at the second reading of the clock and, at the first, has not
    expired or has no refresh token. *)
Theorem GetValidToken_as_is (env : Env) (t : Token) (n1 n2 : Z) (rest : list Z)
    (h : list Call) :
  GetValidToken env (mkWorld (Stored t) (n1 :: n2 :: rest) h) =
    ((Some t, None), mkWorld (Stored t) rest h)
  ↔ ((Expiry t < n1)%Z → RefreshToken_ t = "") ∧ (n2 + Minute ≤ Expiry t)%Z.
Proof.
  split.
  - unfold GetValidToken, LoadToken, ReadFile, Now, mbind, A_bind, mret, A_ret.
    cbn [file clock sent hd tl]. case_decide as Hexpired.
    + destruct (RefreshToken env t _) as [[token err] w1] eqn:Hrefresh.
      destruct err as [err|]; [by intros [=]|].
      destruct token as [token|]; [|by intros [=]].
      apply RefreshToken_stored in Hrefresh as [_ [call Hsent]]. cbn [sent] in Hsent.
      case_decide.
      * intros [_ [call' Hsent']]%RefreshToken_stored. cbn [sent] in Hsent'.
        rewrite Hsent in Hsent'. apply (f_equal length) in Hsent'.
        rewrite !length_app in Hsent'. simpl in Hsent'. lia.
      * intros [= _ _ _ Hw1]. rewrite Hw1 in Hsent.
        apply (f_equal length) in Hsent. rewrite length_app in Hsent. simpl in Hsent. lia.
    + cbn [clock hd tl]. case_decide as Hminute.
      * intros [_ [call Hsent]]%RefreshToken_stored. cbn [sent] in Hsent.
        apply (f_equal length) in Hsent. rewrite length_app in Hsent. simpl in Hsent. lia.
      * intros _. split; [|lia]. intros Hlt.
        destruct (decide (RefreshToken_ t = "")); [done|]. by destruct Hexpired.
  - intros [Hfirst Hsecond]. run_auth. cbn [hd tl].
    rewrite decide_False by (intros [Hlt Hne]; by apply Hne, Hfirst).
    cbn [clock hd tl]. by rewrite decide_False by lia.
Qed.

(** X19. From a file with a token that has no refresh token, as the
    client-credentials login stores it, [GetValidToken] never asks the
    token source: it makes no call or posts the credentials once, and a
    token it returns has no refresh token either. *)
Theorem GetValidToken_client_credentials (env : Env) (w w' : World) (t : Token)
    (r : option Token * option error) :
  file w = Stored t → RefreshToken_ t = "" →
  GetValidToken env w = (r, w') →
  (sent w' = sent w ∨ sent w' = sent w ++ [PostCredentials]) ∧
  (∀ t', r.1 = Some t' → RefreshToken_ t' = "").
Proof.
  intros Hfile Hnone. unfold GetValidToken, LoadToken, ReadFile, Now, mbind, A_bind, mret, A_ret.
  rewrite Hfile. rewrite decide_False by (by intros [_ ?]).
  cbn [clock sent file]. case_decide as Hminute.
  - unfold RefreshToken. rewrite decide_True by done. intros Hlogin. split.
    + right. by apply LoginWithClientCredentials_sent in Hlogin.
    + intros t' Ht'. destruct r as [token e]. simpl in Ht'. subst token.
      by apply LoginWithClientCredentials_stored in Hlogin as (_ & ? & _).
  - intros [= <- <-]. split; [by left|]. by intros t' [= <-].
Qed.

(** X17 on a token that is about to end and is replaced by a login. *)
Lemma GetValidToken_stored_witness :
  let t := mkToken "t1" "" "Bearer" (3600 * Second) in
  GetValidToken outside (at_zero ending) =
    ((Some t, None), mkWorld (Stored t) [] [PostCredentials]) ∧
  file (GetValidToken outside (at_zero ending)).2 = Stored t.
Proof.
  split; [reflexivity|].
  by apply (GetValidToken_stored outside (at_zero ending) _ _ None).
Defined.

(** X19 on the same token. *)
Lemma GetValidToken_client_credentials_witness :
  sent (GetValidToken outside (at_zero ending)).2 = [] ∨
  sent (GetValidToken outside (at_zero ending)).2 = [] ++ [PostCredentials].
Proof.
  by apply (GetValidToken_client_credentials outside (at_zero ending) _ ending
              (GetValidToken outside (at_zero ending)).1).
Defined.
End auth_facts.
